(** * Musify front end: the job monitor of [frontend/src/app/page.tsx]
      and the service client of [frontend/src/lib/api.ts]

    The page component keeps five pieces of React state ([url], [state],
    [jobId], [status], [error]) and changes them from four places: the
    submit handler, the continuation of the create-job call, the
    continuation of a poll, and the reset handler.  Each handler is embedded
    as a function on the record of those five values; the two [await]
    points split [handleSubmit] and [pollStatus] into the part that runs
    before the request leaves and the part that runs when the reply is in.
    Requests that are in flight are kept in an explicit list, so that a
    reply can be delivered late. *)

From Stdlib Require Import String Ascii List Bool NArith ZArith QArith Qminmax Lia.
From Stdlib Require Import SpecFloat.
Import ListNotations.

Local Open Scope string_scope.

(* ------------------------------------------------------------------ *)
(** ** JavaScript values the code relies on *)

Module Js.

(** [!s] on a string: only the empty string is falsy. *)
Definition truthy (s : string) : bool :=
  match s with
  | EmptyString => false
  | String _ _ => true
  end.

(** [!v] on a [string | null]: [null] and the empty string are falsy. *)
Definition truthy_opt (v : option string) : bool :=
  match v with
  | Some s => truthy s
  | None => false
  end.

(** [v || d] where [v : string | null | undefined] and [d] is a string. *)
Definition or_else (v : option string) (d : string) : string :=
  match v with
  | Some s => if truthy s then s else d
  | None => d
  end.

(** Numbers are IEEE 754 binary64 values: 53 bits of precision, exponents
    below 1024, results rounded to nearest, ties to even. *)
Definition number : Type := spec_float.

(** The number an integer literal, an array length or an integer in a JSON
    text stands for: the nearest binary64 value. *)
Definition of_Z (z : Z) : number := binary_normalize 53 1024 z 0 false.

(** [x / y] and [x * y]. *)
Definition div (x y : number) : number := SFdiv 53 1024 x y.
Definition mul (x y : number) : number := SFmul 53 1024 x y.

(** [Math.max(x, y)]: NaN if either is NaN, and [+0] counts as larger than
    [-0]. *)
Definition Math_max (x y : number) : number :=
  match SFcompare x y with
  | None => S754_nan
  | Some Lt => y
  | Some Gt => x
  | Some Eq =>
      match x, y with
      | S754_zero true, S754_zero false => y
      | _, _ => x
      end
  end.

(** [x <= y]. *)
Definition leb (x y : number) : bool := SFleb x y.

(** Not NaN, and with sign bit [s]. *)
Definition has_sign (s : bool) (x : number) : bool :=
  match x with
  | S754_nan => false
  | S754_zero b | S754_infinity b | S754_finite b _ _ => Bool.eqb b s
  end.

(** Neither NaN nor negative nor [-0]. *)
Definition nonnegative (x : number) : bool := has_sign false x.

(** The rational a finite number is, exactly. *)
Definition exact (x : number) : option Q :=
  match x with
  | S754_zero _ => Some 0
  | S754_finite s m e =>
      Some (inject_Z (if s then Z.neg m else Z.pos m) * Qpower 2 e)
  | S754_infinity _ | S754_nan => None
  end.

(** [a.slice(start)] with an integer [start] and no [end]: a negative
    [start] counts from the end of the array, and both ends are clamped. *)
Definition slice {A : Type} (start : Z) (a : list A) : list A :=
  let len := Z.of_nat (length a) in
  let k := if (start <? 0)%Z then Z.max (len + start) 0 else Z.min start len in
  skipn (Z.to_nat k) a.

End Js.

(* ------------------------------------------------------------------ *)
(** ** Regular expressions, as far as [isValidSpotifyUrl] uses them

    The pattern has no flags, no back-references and no look-around, so
    [test] answers whether some match exists, and that is a question about
    the language of the pattern.  Strings are sequences of character codes;
    every character the pattern mentions is an ASCII one, so it makes no
    difference to the test how characters outside ASCII are encoded. *)

Module Regex.

Inductive regex : Type :=
| Void
| Eps
| Chr (c : ascii)
| Range (lo hi : ascii)
| Cat (r1 r2 : regex)
| Alt (r1 r2 : regex)
| Star (r : regex).

(** [r+] *)
Definition Plus (r : regex) : regex := Cat r (Star r).

(** A literal run of characters. *)
Fixpoint Lit (w : string) : regex :=
  match w with
  | EmptyString => Eps
  | String c w' => Cat (Chr c) (Lit w')
  end.

Definition in_range (lo hi c : ascii) : bool :=
  (N_of_ascii lo <=? N_of_ascii c)%N && (N_of_ascii c <=? N_of_ascii hi)%N.

(** The strings a regular expression denotes. *)
Inductive matches : regex -> string -> Prop :=
| MEps : matches Eps ""
| MChr c : matches (Chr c) (String c "")
| MRange lo hi c : in_range lo hi c = true -> matches (Range lo hi) (String c "")
| MCat r1 r2 s1 s2 : matches r1 s1 -> matches r2 s2 -> matches (Cat r1 r2) (s1 ++ s2)
| MAltL r1 r2 s : matches r1 s -> matches (Alt r1 r2) s
| MAltR r1 r2 s : matches r2 s -> matches (Alt r1 r2) s
| MStar0 r : matches (Star r) ""
| MStarS r s1 s2 : matches r s1 -> matches (Star r) s2 -> matches (Star r) (s1 ++ s2).

Fixpoint nullable (r : regex) : bool :=
  match r with
  | Void => false
  | Eps => true
  | Chr _ => false
  | Range _ _ => false
  | Cat r1 r2 => nullable r1 && nullable r2
  | Alt r1 r2 => nullable r1 || nullable r2
  | Star _ => true
  end.

Fixpoint deriv (a : ascii) (r : regex) : regex :=
  match r with
  | Void => Void
  | Eps => Void
  | Chr c => if Ascii.eqb a c then Eps else Void
  | Range lo hi => if in_range lo hi a then Eps else Void
  | Cat r1 r2 =>
      if nullable r1
      then Alt (Cat (deriv a r1) r2) (deriv a r2)
      else Cat (deriv a r1) r2
  | Alt r1 r2 => Alt (deriv a r1) (deriv a r2)
  | Star r1 => Cat (deriv a r1) (Star r1)
  end.

(** The whole string is in the language. *)
Fixpoint accepts (r : regex) (s : string) : bool :=
  match s with
  | EmptyString => nullable r
  | String a s' => accepts (deriv a r) s'
  end.

(** [/^r/.test(s)]: the pattern is anchored at the start only, so the
    test succeeds as soon as some prefix of [s] is in the language. *)
Fixpoint test_anchored (r : regex) (s : string) : bool :=
  nullable r ||
  match s with
  | EmptyString => false
  | String a s' => test_anchored (deriv a r) s'
  end.

End Regex.

(* ------------------------------------------------------------------ *)
(** ** [lib/api.ts] *)

Module Api.

Module DownloadResponse.
Record t : Type := mk { job_id : string; message : string }.
End DownloadResponse.

Module Status.
Inductive t : Type := pending | downloading | completed | error.
End Status.

Module ProgressItem.
Record t : Type := mk { song : string; status : string; message : string }.
End ProgressItem.

Module JobStatus.
Record t : Type := mk {
  job_id : string;
  status : Status.t;
  progress : list ProgressItem.t;
  song_count : Z;
  download_url : option string;
  error : option string
}.
End JobStatus.

(** The body the service sends with a non-2xx answer to create-job:
    [{ detail: string }], where the field may be missing. *)
Module ErrorBody.
Record t : Type := mk { detail : option string }.
End ErrorBody.

(** What the two calls put on the wire. *)
Inductive request : Type :=
| POST_download (url : string)
| GET_status (jobId : string).

(** [response.json()]: the parsed body, or the [SyntaxError] it rejects
    with. *)
Inductive body (A : Type) : Type :=
| Parsed (a : A)
| Malformed (syntax_error : string).
Arguments Parsed {A} a.
Arguments Malformed {A} syntax_error.

(** How a [fetch] ends: it rejects with a [TypeError] when the service
    cannot be reached, and resolves otherwise, with [response.ok] telling a
    2xx status from the rest. *)
Inductive reply (A E : Type) : Type :=
| Unreachable (type_error : string)
| Ok (b : body A)
| NotOk (b : body E).
Arguments Unreachable {A E} type_error.
Arguments Ok {A E} b.
Arguments NotOk {A E} b.

(** Values a [catch] clause can receive.  Everything [lib/api.ts] throws is
    an [Error] object. *)
Inductive thrown : Type :=
| Error (message : string)
| NotAnError.

Inductive completion (A : Type) : Type :=
| Return (a : A)
| Throw (e : thrown).
Arguments Return {A} a.
Arguments Throw {A} e.

Definition json {A : Type} (b : body A) : completion A :=
  match b with
  | Parsed a => Return a
  | Malformed msg => Throw (Error msg)
  end.

Definition bind {A B : Type} (c : completion A) (k : A -> completion B)
  : completion B :=
  match c with
  | Return a => k a
  | Throw e => Throw e
  end.

Section Configured.

(** [process.env.NEXT_PUBLIC_API_URL]. *)
Variable NEXT_PUBLIC_API_URL : option string.

Definition API_URL : string :=
  Js.or_else NEXT_PUBLIC_API_URL "http://localhost:8000".

(** The address each request goes to. *)
Definition endpoint (r : request) : string :=
  match r with
  | POST_download _ => API_URL ++ "/api/download"
  | GET_status jobId => API_URL ++ "/api/status/" ++ jobId
  end.

Definition getDownloadUrl (jobId : string) : string :=
  API_URL ++ "/api/download/" ++ jobId ++ "/zip".

End Configured.

(** [startDownload], up to the [await fetch]. *)
Definition startDownload_request (url : string) : request :=
  POST_download url.

(** [startDownload], from the moment the [fetch] has ended. *)
Definition startDownload_resume
    (r : reply DownloadResponse.t ErrorBody.t)
  : completion DownloadResponse.t :=
  match r with
  | Unreachable msg => Throw (Error msg)
  | NotOk b =>
      bind (json b) (fun error =>
        Throw (Error (Js.or_else (ErrorBody.detail error)
                                 "Failed to start download")))
  | Ok b => json b
  end.

Definition getJobStatus_request (jobId : string) : request :=
  GET_status jobId.

Definition getJobStatus_resume {E : Type} (r : reply JobStatus.t E)
  : completion JobStatus.t :=
  match r with
  | Unreachable msg => Throw (Error msg)
  | NotOk _ => Throw (Error "Failed to get job status")
  | Ok b => json b
  end.

End Api.

(* ------------------------------------------------------------------ *)
(** ** [app/page.tsx]: the [Home] component *)

Module Home.

Module AppState.
Inductive t : Type := idle | loading | downloading | completed | error.

Definition eqb (a b : t) : bool :=
  match a, b with
  | idle, idle | loading, loading | downloading, downloading
  | completed, completed | error, error => true
  | _, _ => false
  end.
End AppState.

(** The five [useState] cells. *)
Record t : Type := mk {
  url : string;
  state : AppState.t;
  jobId : option string;
  status : option Api.JobStatus.t;
  error : option string
}.

(** Their initial values. *)
Definition initial : t := mk "" AppState.idle None None None.

Definition setUrl (v : string) (s : t) : t :=
  mk v (state s) (jobId s) (status s) (error s).
Definition setState (v : AppState.t) (s : t) : t :=
  mk (url s) v (jobId s) (status s) (error s).
Definition setJobId (v : option string) (s : t) : t :=
  mk (url s) (state s) v (status s) (error s).
Definition setStatus (v : option Api.JobStatus.t) (s : t) : t :=
  mk (url s) (state s) (jobId s) v (error s).
Definition setError (v : option string) (s : t) : t :=
  mk (url s) (state s) (jobId s) (status s) v.

(** [[a-zA-Z0-9]] *)
Definition alnum : Regex.regex :=
  Regex.Alt (Regex.Range "a" "z")
    (Regex.Alt (Regex.Range "A" "Z") (Regex.Range "0" "9")).

(** [(playlist|album|track)] *)
Definition kind : Regex.regex :=
  Regex.Alt (Regex.Lit "playlist")
    (Regex.Alt (Regex.Lit "album") (Regex.Lit "track")).

(** [https:\/\/open\.spotify\.com\/(playlist|album|track)\/[a-zA-Z0-9]+] *)
Definition SPOTIFY_URL : Regex.regex :=
  Regex.Cat (Regex.Lit "https://open.spotify.com/")
    (Regex.Cat kind (Regex.Cat (Regex.Chr "/") (Regex.Plus alnum))).

Definition isValidSpotifyUrl (url : string) : bool :=
  Regex.test_anchored SPOTIFY_URL url.

(** [handleSubmit], up to the [await]: the new cells and the request that
    leaves, if one does. *)
Definition handleSubmit (s : t) : t * option Api.request :=
  if negb (isValidSpotifyUrl (url s)) then
    (setError
       (Some "Please enter a valid Spotify playlist, album, or track URL") s,
     None)
  else
    let s1 := setError None s in
    let s2 := setState AppState.loading s1 in
    (s2, Some (Api.startDownload_request (url s))).

(** [handleSubmit], from the [await] on: [c] is how [startDownload] ended. *)
Definition handleSubmit_resume
    (c : Api.completion Api.DownloadResponse.t) (s : t) : t :=
  match c with
  | Api.Return response =>
      let s1 := setJobId (Some (Api.DownloadResponse.job_id response)) s in
      setState AppState.downloading s1
  | Api.Throw err =>
      let message :=
        match err with
        | Api.Error m => m
        | Api.NotAnError => "Failed to start download"
        end in
      setState AppState.error (setError (Some message) s)
  end.

(** [pollStatus], up to the [await]. *)
Definition pollStatus (s : t) : option Api.request :=
  match jobId s with
  | Some j => if negb (Js.truthy j) then None
              else Some (Api.getJobStatus_request j)
  | None => None
  end.

(** [pollStatus], from the [await] on. *)
Definition pollStatus_resume
    (c : Api.completion Api.JobStatus.t) (s : t) : t :=
  match c with
  | Api.Return jobStatus =>
      let s1 := setStatus (Some jobStatus) s in
      match Api.JobStatus.status jobStatus with
      | Api.Status.completed => setState AppState.completed s1
      | Api.Status.error =>
          let s2 :=
            setError
              (Some (Js.or_else (Api.JobStatus.error jobStatus)
                                "Download failed")) s1 in
          setState AppState.error s2
      | _ => s1
      end
  | Api.Throw _ =>
      setState AppState.error (setError (Some "Failed to check status") s)
  end.

(** The effect on [[state, jobId, pollStatus]]: the period, in
    milliseconds, of the interval that is running after the render, if one
    is.  The cleanup clears the interval before the effect runs again, so
    there is never more than one. *)
Definition interval (s : t) : option nat :=
  if negb (AppState.eqb (state s) AppState.downloading)
     || negb (Js.truthy_opt (jobId s))
  then None
  else Some 1000%nat.

(** [handleDownload]: the address handed to [window.open], if any. *)
Definition handleDownload (NEXT_PUBLIC_API_URL : option string) (s : t)
  : option string :=
  match jobId s with
  | Some j => if Js.truthy j
              then Some (Api.getDownloadUrl NEXT_PUBLIC_API_URL j)
              else None
  | None => None
  end.

Definition handleReset (s : t) : t :=
  let s1 := setUrl "" s in
  let s2 := setState AppState.idle s1 in
  let s3 := setJobId None s2 in
  let s4 := setStatus None s3 in
  setError None s4.

(** The [value] given to the progress bar, a percentage:
    [status ? (status.progress.length / Math.max(status.song_count, 1)) * 100
            : 0]. *)
Definition progressValue (s : t) : Js.number :=
  match status s with
  | Some st =>
      Js.mul
        (Js.div (Js.of_Z (Z.of_nat (length (Api.JobStatus.progress st))))
                (Js.Math_max (Js.of_Z (Api.JobStatus.song_count st))
                             (Js.of_Z 1)))
        (Js.of_Z 100)
  | None => Js.of_Z 0
  end.

(** Which of the three branches of the card is rendered. *)
Inductive card : Type := Form | Downloading | Ready.

Definition render (s : t) : card :=
  match state s with
  | AppState.idle | AppState.loading | AppState.error => Form
  | AppState.downloading => Downloading
  | AppState.completed => Ready
  end.

(** [disabled] of the input and of the submit button. *)
Definition input_disabled (s : t) : bool :=
  AppState.eqb (state s) AppState.loading.

Definition submit_disabled (s : t) : bool :=
  AppState.eqb (state s) AppState.loading || negb (Js.truthy (url s)).

(** [{error && <p>{error}</p>}], which is part of the form only. *)
Definition error_shown (s : t) : option string :=
  match render s with
  | Form => if Js.truthy_opt (error s) then error s else None
  | Downloading | Ready => None
  end.

(** [{status?.song_count || 0}], the number in front of "songs processed"
    and "songs packaged into ZIP". *)
Definition songs_shown (s : t) : Z :=
  match status s with
  | Some st =>
      if (Api.JobStatus.song_count st =? 0)%Z then 0%Z
      else Api.JobStatus.song_count st
  | None => 0%Z
  end.

Inductive icon : Type := CheckIcon | LoadingSpinner.

(** One line of the list under the progress bar. *)
Definition progress_row (item : Api.ProgressItem.t) : icon * string :=
  (if String.eqb (Api.ProgressItem.status item) "completed"
   then CheckIcon else LoadingSpinner,
   Api.ProgressItem.song item).

(** [status && status.progress.length > 0 &&
     status.progress.slice(-5).map(...)], the list under the progress bar. *)
Definition progress_rows (s : t) : list (icon * string) :=
  match status s with
  | Some st =>
      if (0 <? length (Api.JobStatus.progress st))%nat
      then map progress_row (Js.slice (-5) (Api.JobStatus.progress st))
      else []
  | None => []
  end.

End Home.

(* ------------------------------------------------------------------ *)
(** ** The page together with the requests it has under way *)

Module Machine.

Definition request_eqb (a b : Api.request) : bool :=
  match a, b with
  | Api.POST_download u, Api.POST_download v => String.eqb u v
  | Api.GET_status i, Api.GET_status j => String.eqb i j
  | _, _ => false
  end.

(** Takes one occurrence of [r] out of [l]; [None] when there is none. *)
Fixpoint take_out (r : Api.request) (l : list Api.request)
  : option (list Api.request) :=
  match l with
  | [] => None
  | x :: l' =>
      if request_eqb r x then Some l'
      else option_map (cons x) (take_out r l')
  end.

Record t : Type := mk {
  session : Home.t;
  inflight : list Api.request;   (* sent and not yet answered *)
  sent : list Api.request;       (* every request so far, oldest first *)
  opened : list string           (* addresses handed to [window.open] *)
}.

Definition initial : t := mk Home.initial [] [] [].

Definition with_session (s : Home.t) (m : t) : t :=
  mk s (inflight m) (sent m) (opened m).

Definition send (r : option Api.request) (m : t) : t :=
  match r with
  | Some q => mk (session m) (inflight m ++ [q]) (sent m ++ [q]) (opened m)
  | None => m
  end.

Definition open_window (a : option string) (m : t) : t :=
  match a with
  | Some u => mk (session m) (inflight m) (sent m) (opened m ++ [u])
  | None => m
  end.

Definition is_poll (r : Api.request) : bool :=
  match r with
  | Api.GET_status _ => true
  | Api.POST_download _ => false
  end.

(** The poll requests among [l]. *)
Definition polls (l : list Api.request) : list Api.request :=
  filter is_poll l.

Inductive event : Type :=
| Type_url (u : string)
| Submit
| Create_replied (u : string)
    (r : Api.reply Api.DownloadResponse.t Api.ErrorBody.t)
| Tick
| Poll_replied (j : string) (r : Api.reply Api.JobStatus.t unit)
| Download
| Reset.

Definition is_create_reply (e : event) : bool :=
  match e with
  | Create_replied _ _ => true
  | _ => false
  end.

Section Configured.

Variable NEXT_PUBLIC_API_URL : option string.

(** One event of the page's single thread.  [None]: the event cannot
    happen, because the interval is not running ([Tick]) or because no such
    request is under way (the two replies). *)
Definition step (m : t) (e : event) : option t :=
  match e with
  | Type_url u => Some (with_session (Home.setUrl u (session m)) m)
  | Submit =>
      let (s, r) := Home.handleSubmit (session m) in
      Some (send r (with_session s m))
  | Create_replied u r =>
      match take_out (Api.POST_download u) (inflight m) with
      | Some rest =>
          let s := Home.handleSubmit_resume (Api.startDownload_resume r)
                     (session m) in
          Some (mk s rest (sent m) (opened m))
      | None => None
      end
  | Tick =>
      match Home.interval (session m) with
      | Some _ => Some (send (Home.pollStatus (session m)) m)
      | None => None
      end
  | Poll_replied j r =>
      match take_out (Api.GET_status j) (inflight m) with
      | Some rest =>
          let s := Home.pollStatus_resume (Api.getJobStatus_resume r)
                     (session m) in
          Some (mk s rest (sent m) (opened m))
      | None => None
      end
  | Download =>
      Some (open_window (Home.handleDownload NEXT_PUBLIC_API_URL (session m)) m)
  | Reset => Some (with_session (Home.handleReset (session m)) m)
  end.

(** Whether the rendered card lets the user cause the event: the form is
    there in [idle], [loading] and [error], with its input and button
    disabled as the markup says; the two buttons of the last card are there
    in [completed]. *)
Definition offered (m : t) (e : event) : bool :=
  match e, Home.render (session m) with
  | Type_url _, Home.Form => negb (Home.input_disabled (session m))
  | Submit, Home.Form => negb (Home.submit_disabled (session m))
  | Download, Home.Ready => true
  | Reset, Home.Ready => true
  | (Type_url _ | Submit | Download | Reset), _ => false
  | (Create_replied _ _ | Tick | Poll_replied _ _), _ => true
  end.

(** [step], for a user who can only use what is on the screen. *)
Definition step_ui (m : t) (e : event) : option t :=
  if offered m e then step m e else None.

Fixpoint run (m : t) (es : list event) : option t :=
  match es with
  | [] => Some m
  | e :: es' =>
      match step m e with
      | Some m' => run m' es'
      | None => None
      end
  end.

Fixpoint run_ui (m : t) (es : list event) : option t :=
  match es with
  | [] => Some m
  | e :: es' =>
      match step_ui m e with
      | Some m' => run_ui m' es'
      | None => None
      end
  end.

End Configured.

Definition is_submit (e : event) : bool :=
  match e with
  | Submit => true
  | _ => false
  end.

(** Events the user causes, as opposed to replies and ticks. *)
Definition is_user_event (e : event) : bool :=
  match e with
  | Type_url _ | Submit | Download | Reset => true
  | Create_replied _ _ | Tick | Poll_replied _ _ => false
  end.

(** The job identifier an event brings in, if it is a create-job reply with
    a 2xx status and a body that parses. *)
Definition issued_by (e : event) : option string :=
  match e with
  | Create_replied _ (Api.Ok (Api.Parsed response)) =>
      Some (Api.DownloadResponse.job_id response)
  | _ => None
  end.

(** [j] has come in with one of the events [es]. *)
Definition issued (es : list event) (j : string) : Prop :=
  exists e, In e es /\ issued_by e = Some j.

Definition is_tick (e : event) : bool :=
  match e with
  | Tick => true
  | _ => false
  end.

(** How many times the interval fired, and how often the form was
    submitted. *)
Definition ticks (es : list event) : nat := length (filter is_tick es).
Definition submits (es : list event) : nat := length (filter is_submit es).

(** The create-job requests among [l]. *)
Definition creates (l : list Api.request) : list Api.request :=
  filter (fun r => negb (is_poll r)) l.

(** A create-job reply that brings a job identifier. *)
Definition is_created (e : event) : bool :=
  match issued_by e with
  | Some _ => true
  | None => false
  end.

End Machine.

(* ------------------------------------------------------------------ *)
(** ** Shapes of input, and the description of the page where the code
       differs from it *)

Module Described.

Definition is_alnum (c : ascii) : bool :=
  Regex.in_range "a" "z" c || Regex.in_range "A" "Z" c
  || Regex.in_range "0" "9" c.

Fixpoint all_alnum (s : string) : bool :=
  match s with
  | EmptyString => true
  | String c s' => is_alnum c && all_alnum s'
  end.

Definition kinds : list string := ["playlist"; "album"; "track"].

(** Scheme and host, one of the three path segments, a non-empty
    alphanumeric identifier, and then [rest]. *)
Definition reference_then (rest u : string) : Prop :=
  exists k id,
    In k kinds /\ id <> "" /\ all_alnum id = true
    /\ u = "https://open.spotify.com/" ++ k ++ "/" ++ id ++ rest.

(** Such a reference and nothing else. *)
Definition resource_reference (u : string) : Prop := reference_then "" u.

(** Such a reference at the start of the string. *)
Definition starts_with_reference (u : string) : Prop :=
  exists rest, reference_then rest u.

(** min(1, n / max(c, 1)) *)
Definition completion_ratio (n : nat) (c : Z) : Q :=
  Qmin 1 (inject_Z (Z.of_nat n) / inject_Z (Z.max c 1)).

(** A snapshot with more progress entries than songs. *)
Definition three_of_two : Api.JobStatus.t :=
  let item := Api.ProgressItem.mk "A" "completed" "" in
  Api.JobStatus.mk "J1" Api.Status.downloading [item; item; item] 2 None None.

(** The bar is given that ratio, as a percentage. *)
Definition shows_completion_ratio (s : Home.t) (st : Api.JobStatus.t) : Prop :=
  exists v,
    Js.exact (Home.progressValue s) = Some v
    /\ v / 100
       == completion_ratio (length (Api.JobStatus.progress st))
            (Api.JobStatus.song_count st).

(** The job identifier is there only after a submission went through. *)
Definition jobId_only_after_submission (s : Home.t) : Prop :=
  (Home.jobId s <> None ->
   Home.state s = Home.AppState.downloading
   \/ Home.state s = Home.AppState.completed
   \/ Home.state s = Home.AppState.error)
  /\ (Home.state s = Home.AppState.idle
      \/ Home.state s = Home.AppState.loading ->
      Home.jobId s = None).

(** A poll reply that comes in after the user has reset changes nothing. *)
Definition late_reply_ignored (NEXT_PUBLIC_API_URL : option string) : Prop :=
  forall es m j r m1 m2,
    Machine.run_ui NEXT_PUBLIC_API_URL Machine.initial es = Some m ->
    Machine.step_ui NEXT_PUBLIC_API_URL m Machine.Reset = Some m1 ->
    Machine.step NEXT_PUBLIC_API_URL m1 (Machine.Poll_replied j r) = Some m2 ->
    Home.state (Machine.session m2) = Home.state (Machine.session m1)
    /\ Home.status (Machine.session m2) = Home.status (Machine.session m1)
    /\ Home.error (Machine.session m2) = Home.error (Machine.session m1).

(** In [downloading] the interval runs and each tick sends one poll. *)
Definition polls_while_downloading (NEXT_PUBLIC_API_URL : option string)
  : Prop :=
  forall es m,
    Machine.run_ui NEXT_PUBLIC_API_URL Machine.initial es = Some m ->
    Home.state (Machine.session m) = Home.AppState.downloading ->
    exists q,
      Machine.is_poll q = true
      /\ Machine.step NEXT_PUBLIC_API_URL m Machine.Tick
         = Some (Machine.send (Some q) m).

(** After a submit that went through, a create-job call that fails with a
    [detail] stores exactly that text. *)
Definition detail_stored_verbatim (NEXT_PUBLIC_API_URL : option string)
  : Prop :=
  forall es m u d m',
    Machine.run_ui NEXT_PUBLIC_API_URL Machine.initial es = Some m ->
    Home.state (Machine.session m) = Home.AppState.loading ->
    Machine.step NEXT_PUBLIC_API_URL m
      (Machine.Create_replied u
         (Api.NotOk (Api.Parsed (Api.ErrorBody.mk (Some d))))) = Some m' ->
    Home.state (Machine.session m') = Home.AppState.error
    /\ Home.error (Machine.session m') = Some d.

End Described.

(* ================================================================== *)
(** * Properties *)

(** ** The matcher agrees with the language *)

Section RegexFacts.

Import Regex.

Lemma append_nil_inv (s1 s2 : string) : s1 ++ s2 = "" -> s1 = "" /\ s2 = "".
Proof.
  destruct s1; simpl; intros H; [auto | discriminate].
Qed.

Lemma append_nil_r (s : string) : s ++ "" = s.
Proof.
  induction s; simpl; [reflexivity | now rewrite IHs].
Qed.

Lemma append_assoc (s1 s2 s3 : string) : (s1 ++ s2) ++ s3 = s1 ++ s2 ++ s3.
Proof.
  induction s1; simpl; [reflexivity | now rewrite IHs1].
Qed.

Lemma matches_nullable (r : regex) (w : string) :
  matches r w -> w = "" -> nullable r = true.
Proof.
  induction 1; intros E; simpl; try discriminate; try reflexivity.
  - apply append_nil_inv in E as [E1 E2].
    now rewrite IHmatches1, IHmatches2.
  - now rewrite IHmatches.
  - rewrite IHmatches by assumption. apply orb_true_r.
Qed.

Lemma nullable_matches (r : regex) : nullable r = true -> matches r "".
Proof.
  induction r; simpl; intros H; try discriminate.
  - constructor.
  - apply andb_true_iff in H as [H1 H2].
    change "" with ("" ++ ""). constructor; auto.
  - apply orb_true_iff in H as [H | H]; [apply MAltL | apply MAltR]; auto.
  - constructor.
Qed.

Lemma nullable_spec (r : regex) : nullable r = true <-> matches r "".
Proof.
  split; [apply nullable_matches | intros H; now apply matches_nullable with ""].
Qed.

Lemma matches_deriv (r : regex) (w : string) :
  matches r w -> forall a v, w = String a v -> matches (deriv a r) v.
Proof.
  induction 1; intros a v E; simpl; try discriminate.
  - injection E as -> <-. rewrite Ascii.eqb_refl. constructor.
  - injection E as -> <-. rewrite H. constructor.
  - destruct s1 as [| b s1']; simpl in E.
    + rewrite (matches_nullable _ _ H eq_refl).
      apply MAltR. now apply IHmatches2.
    + injection E as -> <-.
      specialize (IHmatches1 _ _ eq_refl).
      destruct (nullable r1); [apply MAltL |]; now constructor.
  - apply MAltL. now apply IHmatches.
  - apply MAltR. now apply IHmatches.
  - destruct s1 as [| b s1']; simpl in E.
    + now apply IHmatches2.
    + injection E as -> <-. constructor; [now apply IHmatches1 | assumption].
Qed.

Lemma deriv_matches (a : ascii) (r : regex) :
  forall s, matches (deriv a r) s -> matches r (String a s).
Proof.
  induction r; simpl; intros s H.
  - inversion H.
  - inversion H.
  - destruct (Ascii.eqb a c) eqn:E; inversion H; subst.
    apply Ascii.eqb_eq in E as ->. constructor.
  - destruct (in_range lo hi a) eqn:E; inversion H; subst.
    now constructor.
  - destruct (nullable r1) eqn:N.
    + inversion H as [| | | | ? ? ? H' | ? ? ? H' | |]; subst.
      * inversion H' as [| | | ? ? s1 s2 H1 H2 | | | |]; subst.
        change (String a (s1 ++ s2)) with (String a s1 ++ s2).
        constructor; auto.
      * change (String a s) with ("" ++ String a s).
        constructor; [now apply nullable_matches | auto].
    + inversion H as [| | | ? ? s1 s2 H1 H2 | | | |]; subst.
      change (String a (s1 ++ s2)) with (String a s1 ++ s2).
      constructor; auto.
  - inversion H; subst; [apply MAltL | apply MAltR]; auto.
  - inversion H as [| | | ? ? s1 s2 H1 H2 | | | |]; subst.
    change (String a (s1 ++ s2)) with (String a s1 ++ s2).
    constructor; auto.
Qed.

Lemma accepts_spec (s : string) :
  forall r, accepts r s = true <-> matches r s.
Proof.
  induction s as [| a s IH]; intros r; simpl.
  - apply nullable_spec.
  - rewrite IH. split.
    + apply deriv_matches.
    + intros H. now apply matches_deriv with (String a s).
Qed.

Lemma test_anchored_spec (s : string) :
  forall r,
    test_anchored r s = true <-> exists p q, s = p ++ q /\ matches r p.
Proof.
  induction s as [| a s IH]; intros r; simpl; rewrite orb_true_iff.
  - split.
    + intros [H | H]; [| discriminate].
      exists "", "". split; [reflexivity | now apply nullable_matches].
    + intros (p & q & E & H). left.
      symmetry in E. apply append_nil_inv in E as [-> _].
      now apply matches_nullable with "".
  - rewrite IH. split.
    + intros [H | (p & q & -> & H)].
      * exists "", (String a s). split; [reflexivity | now apply nullable_matches].
      * exists (String a p), q. split; [reflexivity | now apply deriv_matches].
    + intros (p & q & E & H). destruct p as [| b p]; simpl in E.
      * left. now apply matches_nullable with "".
      * injection E as <- ->. right. exists p, q.
        split; [reflexivity | now apply matches_deriv with (String a p)].
Qed.

End RegexFacts.

(** ** The language of the pattern in [isValidSpotifyUrl] *)

Section PatternFacts.

Import Regex.

Lemma matches_Cat_iff (r1 r2 : regex) (s : string) :
  matches (Cat r1 r2) s
  <-> exists s1 s2, s = s1 ++ s2 /\ matches r1 s1 /\ matches r2 s2.
Proof.
  split.
  - intros H. inversion H; subst. eauto.
  - intros (s1 & s2 & -> & H1 & H2). now constructor.
Qed.

Lemma matches_Alt_iff (r1 r2 : regex) (s : string) :
  matches (Alt r1 r2) s <-> matches r1 s \/ matches r2 s.
Proof.
  split.
  - intros H. inversion H; subst; auto.
  - intros [H | H]; [apply MAltL | apply MAltR]; assumption.
Qed.

Lemma matches_Chr_iff (c : ascii) (s : string) :
  matches (Chr c) s <-> s = String c "".
Proof.
  split.
  - intros H. now inversion H.
  - intros ->. constructor.
Qed.

Lemma matches_Range_iff (lo hi : ascii) (s : string) :
  matches (Range lo hi) s
  <-> exists c, s = String c "" /\ in_range lo hi c = true.
Proof.
  split.
  - intros H. inversion H; subst. eauto.
  - intros (c & -> & H). now constructor.
Qed.

Lemma matches_Lit_iff (w s : string) : matches (Lit w) s <-> s = w.
Proof.
  revert s. induction w as [| c w IH]; intros s; simpl.
  - split; [intros H; now inversion H | intros ->; constructor].
  - rewrite matches_Cat_iff. split.
    + intros (s1 & s2 & -> & H1 & H2).
      apply matches_Chr_iff in H1 as ->. apply IH in H2 as ->. reflexivity.
    + intros ->. exists (String c ""), w.
      repeat split; [constructor | now apply IH].
Qed.

Lemma matches_alnum_iff (s : string) :
  matches Home.alnum s
  <-> exists c, s = String c "" /\ Described.is_alnum c = true.
Proof.
  unfold Home.alnum, Described.is_alnum.
  rewrite !matches_Alt_iff, !matches_Range_iff. split.
  - intros [(c & -> & H) | [(c & -> & H) | (c & -> & H)]];
      exists c; rewrite H; (split; [reflexivity | now rewrite ?orb_true_r]).
  - intros (c & -> & H).
    apply orb_true_iff in H as [H | H];
      [apply orb_true_iff in H as [H | H] |]; eauto 6.
Qed.

Lemma star_alnum_all (r : regex) (s : string) :
  matches r s -> r = Star Home.alnum -> Described.all_alnum s = true.
Proof.
  induction 1; intros E; try discriminate; [reflexivity |].
  injection E as ->.
  apply matches_alnum_iff in H as (c & -> & Hc).
  simpl. rewrite Hc. now apply IHmatches2.
Qed.

Lemma matches_star_alnum_iff (s : string) :
  matches (Star Home.alnum) s <-> Described.all_alnum s = true.
Proof.
  split.
  - intros H. now apply star_alnum_all with (Star Home.alnum).
  - induction s as [| c s IH]; simpl; intros H.
    + constructor.
    + apply andb_true_iff in H as [Hc Hs].
      change (String c s) with (String c "" ++ s).
      constructor; [apply matches_alnum_iff; eauto | auto].
Qed.

Lemma matches_plus_alnum_iff (s : string) :
  matches (Plus Home.alnum) s <-> s <> "" /\ Described.all_alnum s = true.
Proof.
  unfold Plus. rewrite matches_Cat_iff. split.
  - intros (s1 & s2 & -> & H1 & H2).
    apply matches_alnum_iff in H1 as (c & -> & Hc).
    apply matches_star_alnum_iff in H2.
    simpl. rewrite Hc, H2. split; [discriminate | reflexivity].
  - intros [Hne H]. destruct s as [| c s]; [contradiction |].
    simpl in H. apply andb_true_iff in H as [Hc Hs].
    exists (String c ""), s. repeat split.
    + apply matches_alnum_iff; eauto.
    + now apply matches_star_alnum_iff.
Qed.

Lemma matches_kind_iff (s : string) :
  matches Home.kind s <-> In s Described.kinds.
Proof.
  unfold Home.kind, Described.kinds.
  rewrite !matches_Alt_iff, !matches_Lit_iff. simpl.
  intuition congruence.
Qed.

Lemma matches_SPOTIFY_URL_iff (p : string) :
  matches Home.SPOTIFY_URL p <-> Described.resource_reference p.
Proof.
  unfold Home.SPOTIFY_URL, Described.resource_reference,
    Described.reference_then.
  split.
  - intros H.
    apply matches_Cat_iff in H as (s1 & s2 & -> & H1 & H).
    apply matches_Lit_iff in H1 as ->.
    apply matches_Cat_iff in H as (k & s3 & -> & Hk & H).
    apply matches_kind_iff in Hk.
    apply matches_Cat_iff in H as (s4 & id & -> & H4 & Hid).
    apply matches_Chr_iff in H4 as ->.
    apply matches_plus_alnum_iff in Hid as [Hne Hall].
    exists k, id. rewrite append_nil_r. auto.
  - intros (k & id & Hk & Hne & Hall & ->).
    rewrite append_nil_r.
    apply matches_Cat_iff. eexists _, _. split; [reflexivity |].
    split; [now apply matches_Lit_iff |].
    apply matches_Cat_iff. exists k, ("/" ++ id).
    split; [reflexivity |]. split; [now apply matches_kind_iff |].
    apply matches_Cat_iff. exists "/", id.
    split; [reflexivity |]. split; [now apply matches_Chr_iff |].
    now apply matches_plus_alnum_iff.
Qed.

Lemma reference_then_append (p q : string) :
  Described.resource_reference p -> Described.reference_then q (p ++ q).
Proof.
  intros (k & id & Hk & Hne & Hall & ->).
  exists k, id. repeat split; auto.
  rewrite append_nil_r, !append_assoc. reflexivity.
Qed.

Lemma reference_then_split (rest u : string) :
  Described.reference_then rest u ->
  exists p, u = p ++ rest /\ Described.resource_reference p.
Proof.
  intros (k & id & Hk & Hne & Hall & ->).
  exists ("https://open.spotify.com/" ++ k ++ "/" ++ id). split.
  - rewrite !append_assoc. reflexivity.
  - exists k, id. rewrite append_nil_r. auto.
Qed.

(** The test succeeds exactly on the strings that begin with a reference. *)
Lemma isValidSpotifyUrl_spec (u : string) :
  Home.isValidSpotifyUrl u = true <-> Described.starts_with_reference u.
Proof.
  unfold Home.isValidSpotifyUrl, Described.starts_with_reference.
  rewrite test_anchored_spec. split.
  - intros (p & q & -> & H). exists q.
    apply reference_then_append. now apply matches_SPOTIFY_URL_iff.
  - intros (rest & H).
    apply reference_then_split in H as (p & -> & H).
    exists p, rest. split; [reflexivity | now apply matches_SPOTIFY_URL_iff].
Qed.

End PatternFacts.

(** ** The progress bar *)

Section ProgressFacts.

Local Open Scope Z_scope.

Lemma shr_1_nonneg (mrs : shr_record) :
  0 <= shr_m mrs -> 0 <= shr_m (shr_1 mrs).
Proof.
  destruct mrs as [m r b]. destruct m as [| [p | p |] | [p | p |]];
    simpl; lia.
Qed.

Lemma iter_pos_keeps {A : Type} (f : A -> A) (P : A -> Prop) :
  (forall x, P x -> P (f x)) ->
  forall (n : positive) (x : A), P x -> P (iter_pos f n x).
Proof.
  intros Hf. induction n as [n IH | n IH |]; simpl; intros x Px; auto.
Qed.

Lemma shr_fexp_nonneg (m e : Z) (l : location) :
  0 <= m -> 0 <= shr_m (fst (shr_fexp 53 1024 m e l)).
Proof.
  intros Hm. unfold shr_fexp, shr.
  assert (H0 : 0 <= shr_m (shr_record_of_loc m l))
    by (destruct l as [| []]; exact Hm).
  destruct (fexp 53 1024 (Zdigits2 m + e) - e) as [| p | p]; simpl; auto.
  apply iter_pos_keeps; [apply shr_1_nonneg | exact H0].
Qed.

Lemma round_nearest_even_nonneg (m : Z) (l : location) :
  0 <= m -> 0 <= round_nearest_even m l.
Proof.
  intros Hm. destruct l as [| []]; simpl; try lia.
  destruct (Z.even m); lia.
Qed.

(** Rounding a non-negative mantissa never gives NaN, and keeps the sign. *)
Lemma binary_round_aux_sign (sx : bool) (mx ex : Z) (lx : location) :
  0 <= mx -> Js.has_sign sx (binary_round_aux 53 1024 sx mx ex lx) = true.
Proof.
  intros Hm. unfold binary_round_aux.
  pose proof (shr_fexp_nonneg mx ex lx Hm) as H1.
  destruct (shr_fexp 53 1024 mx ex lx) as [mrs' e']. simpl in H1.
  pose proof (shr_fexp_nonneg
                (round_nearest_even (shr_m mrs') (loc_of_shr_record mrs'))
                e' loc_Exact
                (round_nearest_even_nonneg _ _ H1)) as H2.
  destruct (shr_fexp 53 1024 _ e' loc_Exact) as [mrs'' e'']. simpl in H2.
  destruct (shr_m mrs'') as [| p | p]; [| | lia].
  - simpl. apply Bool.eqb_reflx.
  - destruct (e'' <=? 1024 - 53); simpl; apply Bool.eqb_reflx.
Qed.

Lemma of_Z_sign (z : Z) : Js.has_sign (z <? 0) (Js.of_Z z) = true.
Proof.
  unfold Js.of_Z, binary_normalize, binary_round.
  destruct z as [| m | m]; [reflexivity | |];
    destruct (shl_align _ _ _) as [mz ez];
    apply binary_round_aux_sign; lia.
Qed.

Lemma digits2_pos_lower (m : positive) :
  2 ^ (Z.pos (digits2_pos m) - 1) <= Z.pos m.
Proof.
  induction m as [m IH | m IH |]; simpl digits2_pos.
  - rewrite Pos2Z.inj_succ.
    replace (Z.succ (Z.pos (digits2_pos m)) - 1)
      with (Z.succ (Z.pos (digits2_pos m) - 1)) by lia.
    rewrite Z.pow_succ_r by lia. lia.
  - rewrite Pos2Z.inj_succ.
    replace (Z.succ (Z.pos (digits2_pos m)) - 1)
      with (Z.succ (Z.pos (digits2_pos m) - 1)) by lia.
    rewrite Z.pow_succ_r by lia. lia.
  - simpl. lia.
Qed.

Lemma digits2_pos_shift (m k : positive) :
  digits2_pos (Pos.iter xO m k) = (digits2_pos m + k)%positive.
Proof.
  induction k as [| k IH] using Pos.peano_ind.
  - simpl. now rewrite Pos.add_1_r.
  - rewrite Pos.iter_succ. simpl. rewrite IH. now rewrite Pos.add_succ_r.
Qed.

(** A mantissa of 53 bits with an exponent in range is left as it is. *)
Lemma binary_round_aux_exact (sx : bool) (m : positive) (e : Z) :
  Z.pos (digits2_pos m) = 53 -> -1074 <= e <= 971 ->
  binary_round_aux 53 1024 sx (Z.pos m) e loc_Exact = S754_finite sx m e.
Proof.
  intros D He.
  assert (F : fexp 53 1024 (Zdigits2 (Z.pos m) + e) - e = 0).
  { unfold fexp, emin. simpl Zdigits2. rewrite D. lia. }
  assert (L : (e <=? 1024 - 53) = true) by (apply Z.leb_le; lia).
  unfold binary_round_aux, shr_fexp. rewrite F.
  cbn [shr shr_record_of_loc shr_m shr_r shr_s loc_of_shr_record
         round_nearest_even].
  rewrite F. cbn [shr shr_m]. now rewrite L.
Qed.

(** Integers below 2^53 are numbers, and finite ones. *)
Lemma of_Z_small (z : Z) :
  0 < z < 2 ^ 53 -> exists m e, Js.of_Z z = S754_finite false m e.
Proof.
  intros [Hz Hb]. destruct z as [| m | m]; try lia.
  assert (D : Z.pos (digits2_pos m) <= 53).
  { destruct (Z.le_gt_cases (Z.pos (digits2_pos m)) 53) as [H | H]; [exact H |].
    pose proof (digits2_pos_lower m) as L.
    assert (2 ^ 53 <= 2 ^ (Z.pos (digits2_pos m) - 1))
      by (apply Z.pow_le_mono_r; lia).
    lia. }
  unfold Js.of_Z, binary_normalize, binary_round, shl_align.
  assert (F : fexp 53 1024 (Z.pos (digits2_pos m) + 0)
              = Z.pos (digits2_pos m) - 53)
    by (unfold fexp, emin; lia).
  rewrite F.
  destruct (Z.pos (digits2_pos m) - 53 - 0) as [| k | k] eqn:K; try lia.
  - eexists _, _. apply binary_round_aux_exact; lia.
  - eexists _, _. apply binary_round_aux_exact; [| lia].
    rewrite digits2_pos_shift. lia.
Qed.

Lemma SFcompare_refl_finite (p : positive) (q : Z) :
  SFcompare (S754_finite false p q) (S754_finite false p q) = Some Eq.
Proof.
  simpl. rewrite Z.compare_refl. now rewrite Pos.compare_cont_refl.
Qed.

Lemma Math_max_finite (x : Js.number) (s : bool) (p : positive) (q : Z) :
  Js.has_sign s x = true ->
  let y := S754_finite false p q in
  let d := Js.Math_max x y in
  Js.leb y d = true
  /\ (d = S754_infinity false \/ exists m e, d = S754_finite false m e).
Proof.
  intros Hx y d. subst d y. unfold Js.leb, SFleb, Js.Math_max.
  destruct x as [sz | [|] | | [|] m e]; cbn [Js.has_sign] in Hx;
    try discriminate Hx.
  - simpl. rewrite Z.compare_refl, Pos.compare_cont_refl. eauto.
  - simpl. rewrite Z.compare_refl, Pos.compare_cont_refl. eauto.
  - simpl. auto.
  - simpl. rewrite Z.compare_refl, Pos.compare_cont_refl. eauto.
  - simpl. destruct (e ?= q) eqn:Ce.
    + apply Z.compare_eq in Ce. subst e.
      destruct (Pos.compare_cont Eq m p) eqn:Cm; simpl;
        rewrite Z.compare_refl.
      * apply Pos.compare_eq in Cm. subst m.
        rewrite Pos.compare_cont_refl. eauto.
      * rewrite Pos.compare_cont_refl. eauto.
      * assert (A : Pos.compare_cont Eq p m = Lt).
        { pose proof (Pos.compare_cont_antisym m p Eq) as A.
          rewrite Cm in A. simpl in A. now symmetry. }
        rewrite A. eauto.
    + simpl. rewrite Z.compare_refl, Pos.compare_cont_refl. eauto.
    + simpl. rewrite Z.compare_antisym, Ce. simpl. eauto.
Qed.

Lemma Math_max_one (x : Js.number) (s : bool) :
  Js.has_sign s x = true ->
  let d := Js.Math_max x (Js.of_Z 1) in
  Js.leb (Js.of_Z 1) d = true
  /\ (d = S754_infinity false \/ exists m e, d = S754_finite false m e).
Proof.
  change (Js.of_Z 1) with (S754_finite false 4503599627370496 (-52)).
  apply Math_max_finite.
Qed.

Lemma div_nonnegative (x d : Js.number) :
  (x = S754_zero false \/ exists m e, x = S754_finite false m e) ->
  (d = S754_infinity false \/ exists m e, d = S754_finite false m e) ->
  Js.nonnegative (Js.div x d) = true
  /\ (x = S754_zero false -> Js.div x d = S754_zero false).
Proof.
  intros [-> | (mx & ex & ->)] [-> | (my & ey & ->)];
    try (split; [reflexivity | intros H; (reflexivity || discriminate H)]).
  split; [| discriminate].
  unfold Js.nonnegative, Js.div, SFdiv, SFdiv_core_binary.
  set (s := ex - ey - _).
  set (m' := match s with
             | 0 => Z.pos mx
             | Z.pos _ => Z.shiftl (Z.pos mx) s
             | Z.neg _ => 0
             end).
  assert (H0 : 0 <= m').
  { subst m'. destruct s; try lia. apply Z.shiftl_nonneg. lia. }
  destruct (Z.div_eucl m' (Z.pos my)) as [q r] eqn:E.
  assert (Hq : q = m' / Z.pos my) by (unfold Z.div; now rewrite E).
  apply binary_round_aux_sign. subst q. apply Z.div_pos; lia.
Qed.

Lemma mul_nonnegative (x : Js.number) (p : positive) (q : Z) :
  Js.nonnegative x = true ->
  Js.nonnegative (Js.mul x (S754_finite false p q)) = true
  /\ (x = S754_zero false ->
      Js.mul x (S754_finite false p q) = S754_zero false).
Proof.
  unfold Js.nonnegative, Js.mul.
  destruct x as [[|] | [|] | | [|] m e]; cbn [Js.has_sign]; simpl Bool.eqb;
    try discriminate; intros _.
  - split; reflexivity.
  - split; [reflexivity | discriminate].
  - split; [| discriminate]. cbn [SFmul xorb].
    apply binary_round_aux_sign. lia.
Qed.

(** The values the description and the examples speak of. *)
Lemma progress_samples :
  let value n c :=
    Js.mul (Js.div (Js.of_Z (Z.of_nat n)) (Js.Math_max (Js.of_Z c) (Js.of_Z 1)))
      (Js.of_Z 100) in
  value 3%nat 2 = Js.of_Z 150
  /\ value 4%nat 10 = Js.of_Z 40
  /\ value 7%nat 25 = S754_finite false 7881299347898369 (-48)
  /\ Js.of_Z 28 = S754_finite false 7881299347898368 (-48).
Proof.
  vm_compute. repeat split.
Qed.

Lemma exact_samples :
  (exists v, Js.exact (Js.of_Z 150) = Some v
             /\ Qeq_bool (v / 100) (Described.completion_ratio 3 2) = false)
  /\ (exists v, Js.exact (Js.of_Z 40) = Some v
                /\ Qeq_bool (v / 100) (4 # 10) = true)
  /\ (exists v, Js.exact (S754_finite false 7881299347898369 (-48)) = Some v
                /\ Qeq_bool v (28 + 1 / inject_Z (2 ^ 48)) = true).
Proof.
  split; [| split]; eexists; (split; [vm_compute; reflexivity |]);
    vm_compute; reflexivity.
Qed.

(** C1 (as the code has it): with a snapshot of [n] progress entries and song
    count [c], the bar is given the binary64 result of
    [(n / max(c, 1)) * 100].  The divisor is never below 1, so for any array
    length (below 2^32) the value is neither NaN nor negative, and it is 0
    when there are no entries or no snapshot.  Nothing caps it at 100: with
    [c = 2] and [n = 3] it is 150.  With [c = 10] and [n = 4] it is 40, the
    ratio 0.4, and with [c = 0] and [n = 0] it is 0.  It is the quotient only
    up to rounding: with [c = 25] and [n = 7] it is 28 + 2^-48, not 28. *)
Theorem progress_ratio_uncapped :
  forall (s : Home.t) (st : Api.JobStatus.t),
    let n := length (Api.JobStatus.progress st) in
    let c := Api.JobStatus.song_count st in
    let divisor := Js.Math_max (Js.of_Z c) (Js.of_Z 1) in
    let shown := Home.progressValue (Home.setStatus (Some st) s) in
    shown = Js.mul (Js.div (Js.of_Z (Z.of_nat n)) divisor) (Js.of_Z 100)
    /\ Js.leb (Js.of_Z 1) divisor = true
    /\ (Z.of_nat n < 2 ^ 32 -> Js.nonnegative shown = true)
    /\ (n = 0%nat -> shown = Js.of_Z 0)
    /\ Home.progressValue (Home.setStatus None s) = Js.of_Z 0
    /\ (c = 2 -> n = 3%nat -> shown = Js.of_Z 150)
    /\ (c = 10 -> n = 4%nat ->
        shown = Js.of_Z 40
        /\ exists v, Js.exact shown = Some v /\ (v / 100 == 4 # 10)%Q)
    /\ (c = 0 -> n = 0%nat -> shown = Js.of_Z 0)
    /\ (c = 25 -> n = 7%nat ->
        shown <> Js.of_Z 28
        /\ exists v, Js.exact shown = Some v
                     /\ (v == 28 + 1 / inject_Z (2 ^ 48))%Q).
Proof.
  intros s st n c divisor shown.
  assert (E : shown
              = Js.mul (Js.div (Js.of_Z (Z.of_nat n)) divisor) (Js.of_Z 100))
    by reflexivity.
  destruct (Math_max_one (Js.of_Z c) _ (of_Z_sign c)) as [L D].
  fold divisor in L, D.
  destruct (of_Z_small 100 (conj eq_refl eq_refl)) as (p & q & H100).
  destruct progress_samples as (V150 & V40 & V28 & N28).
  destruct exact_samples as (_ & (v40 & E40 & Q40) & (v28 & E28 & Q28)).
  assert (Zero : n = 0%nat -> shown = Js.of_Z 0).
  { intros Hn. rewrite E, Hn, H100.
    destruct (div_nonnegative (Js.of_Z (Z.of_nat 0)) divisor
                (or_introl eq_refl) D) as [_ Z0].
    rewrite (Z0 eq_refl).
    now apply (mul_nonnegative (S754_zero false) p q eq_refl). }
  split; [exact E |]. split; [exact L |].
  split; [| split; [exact Zero | split; [reflexivity |]]].
  - intros B. rewrite E, H100.
    apply mul_nonnegative.
    apply div_nonnegative; [| exact D].
    destruct (Z.of_nat n) as [| k | k] eqn:K; [now left | right | lia].
    apply of_Z_small.
    assert (2 ^ 32 < 2 ^ 53) by (apply Z.pow_lt_mono_r; lia). lia.
  - split; [| split; [| split]].
    + intros Hc Hn. rewrite E. unfold divisor. rewrite Hc, Hn. exact V150.
    + intros Hc Hn. rewrite E. unfold divisor. rewrite Hc, Hn, V40.
      split; [reflexivity |].
      exists v40. split; [exact E40 | now apply Qeq_bool_eq].
    + intros _ Hn. now apply Zero.
    + intros Hc Hn. rewrite E. unfold divisor. rewrite Hc, Hn, V28, N28.
      split; [discriminate |].
      exists v28. split; [exact E28 | now apply Qeq_bool_eq].
Qed.

(** C1 (as stated) fails: three progress entries against a song count of
    two give the bar 150, a ratio of 3/2 and not min(1, 3/2) = 1. *)
Lemma progress_ratio_exceeds_one :
  ~ (forall (s : Home.t) (st : Api.JobStatus.t),
       Home.status s = Some st -> Described.shows_completion_ratio s st).
Proof.
  intros H.
  destruct (H (Home.setStatus (Some Described.three_of_two) Home.initial)
              Described.three_of_two eq_refl) as (v & Ev & Hv).
  destruct progress_samples as (V150 & _).
  destruct exact_samples as ((w & Ew & Nw) & _).
  assert (X : Home.progressValue
                (Home.setStatus (Some Described.three_of_two) Home.initial)
              = Js.of_Z 150) by exact V150.
  rewrite X, Ew in Ev. injection Ev as <-.
  apply Qeq_bool_neq in Nw. apply Nw. exact Hv.
Qed.

End ProgressFacts.

(** ** Submitting *)

Section SubmitFacts.

Variable NEXT_PUBLIC_API_URL : option string.

Lemma not_valid_not_reference (u : string) :
  Home.isValidSpotifyUrl u = false -> ~ Described.starts_with_reference u.
Proof.
  intros V H. apply isValidSpotifyUrl_spec in H. congruence.
Qed.

Lemma offered_submit_state (m : Machine.t) :
  Machine.offered m Machine.Submit = true ->
  Home.state (Machine.session m) = Home.AppState.idle
  \/ Home.state (Machine.session m) = Home.AppState.error.
Proof.
  unfold Machine.offered, Home.render, Home.submit_disabled.
  destruct (Home.state (Machine.session m)); simpl; auto; discriminate.
Qed.

(** C2 (as the code has it): submit goes on to create-job exactly when the
    input begins with [https://open.spotify.com/], one of [playlist],
    [album], [track], a slash and at least one alphanumeric character;
    whatever follows is not looked at.  Then the request is sent, the error
    is cleared and the state becomes [loading].  Any other input sends
    nothing, sets the validation message and keeps the state; where the form
    offers submit at all, the state afterwards is neither [downloading] nor
    [completed]. *)
Theorem submit_validates_prefix :
  forall m : Machine.t,
    let s := Machine.session m in
    let q := Api.POST_download (Home.url s) in
    exists m',
      Machine.step NEXT_PUBLIC_API_URL m Machine.Submit = Some m'
      /\ ((Described.starts_with_reference (Home.url s)
           /\ Machine.sent m' = (Machine.sent m ++ [q])%list
           /\ Machine.inflight m' = (Machine.inflight m ++ [q])%list
           /\ Machine.session m'
              = Home.setState Home.AppState.loading (Home.setError None s))
          \/ (~ Described.starts_with_reference (Home.url s)
              /\ Machine.sent m' = Machine.sent m
              /\ Machine.inflight m' = Machine.inflight m
              /\ Machine.session m'
                 = Home.setError
                     (Some "Please enter a valid Spotify playlist, album, or track URL")
                     s
              /\ Home.state (Machine.session m') = Home.state s))
      /\ (Machine.offered m Machine.Submit = true ->
          Home.state (Machine.session m') <> Home.AppState.downloading
          /\ Home.state (Machine.session m') <> Home.AppState.completed).
Proof.
  intros m s q. unfold Machine.step, Home.handleSubmit. fold s.
  destruct (Home.isValidSpotifyUrl (Home.url s)) eqn:V; simpl;
    eexists; (split; [reflexivity |]); split.
  - left. apply isValidSpotifyUrl_spec in V. auto.
  - intros _. simpl. split; discriminate.
  - right. apply not_valid_not_reference in V. auto.
  - intros O. simpl. fold s.
    destruct (offered_submit_state m O) as [E | E]; fold s in E; rewrite E;
      split; discriminate.
Qed.

(** C2 (as stated) fails: a reference followed by a query string is
    accepted although it is not a reference and nothing else. *)
Lemma submit_accepts_trailing_text :
  ~ (forall s : Home.t,
       snd (Home.handleSubmit s) = Some (Api.POST_download (Home.url s))
       <-> Described.resource_reference (Home.url s)).
Proof.
  intros H.
  pose (u := "https://open.spotify.com/track/abc?si=1").
  destruct (H (Home.setUrl u Home.initial)) as [H1 _].
  specialize (H1 eq_refl).
  apply matches_SPOTIFY_URL_iff, accepts_spec in H1.
  vm_compute in H1. discriminate H1.
Qed.

(** C10: a submit whose input fails the validation changes the error
    message and nothing else: the URL, the state, the job identifier and the
    snapshot are as before, and so are the requests sent and under way. *)
Theorem invalid_submit_changes_error_only :
  forall m : Machine.t,
    Home.isValidSpotifyUrl (Home.url (Machine.session m)) = false ->
    exists m',
      Machine.step NEXT_PUBLIC_API_URL m Machine.Submit = Some m'
      /\ Home.url (Machine.session m') = Home.url (Machine.session m)
      /\ Home.state (Machine.session m') = Home.state (Machine.session m)
      /\ Home.jobId (Machine.session m') = Home.jobId (Machine.session m)
      /\ Home.status (Machine.session m') = Home.status (Machine.session m)
      /\ Home.error (Machine.session m')
         = Some "Please enter a valid Spotify playlist, album, or track URL"
      /\ Machine.sent m' = Machine.sent m
      /\ Machine.inflight m' = Machine.inflight m
      /\ Machine.opened m' = Machine.opened m.
Proof.
  intros m V. unfold Machine.step, Home.handleSubmit. rewrite V. simpl.
  eexists. split; [reflexivity |]. simpl. repeat split.
Qed.

End SubmitFacts.

Lemma invalid_submit_changes_error_only_witness :
  let job := Api.JobStatus.mk "J0" Api.Status.error [] 3 None (Some "boom") in
  let s := Home.mk "spotify:track:abc" Home.AppState.error (Some "J0")
             (Some job) (Some "boom") in
  let m := Machine.mk s [] [Api.POST_download "x"] [] in
  Home.isValidSpotifyUrl (Home.url s) = false
  /\ exists m',
      Machine.step None m Machine.Submit = Some m'
      /\ Home.url (Machine.session m') = "spotify:track:abc"
      /\ Home.state (Machine.session m') = Home.AppState.error
      /\ Home.jobId (Machine.session m') = Some "J0"
      /\ Home.status (Machine.session m') = Some job
      /\ Home.error (Machine.session m')
         = Some "Please enter a valid Spotify playlist, album, or track URL"
      /\ Machine.sent m' = [Api.POST_download "x"]
      /\ Machine.inflight m' = []
      /\ Machine.opened m' = [].
Proof.
  intros job s m. split; [reflexivity |].
  apply (invalid_submit_changes_error_only None m). reflexivity.
Defined.

(** ** Runs of the machine *)

Section MachineFacts.

Variable NEXT_PUBLIC_API_URL : option string.

Local Abbreviation step := (Machine.step NEXT_PUBLIC_API_URL).
Local Abbreviation step_ui := (Machine.step_ui NEXT_PUBLIC_API_URL).
Local Abbreviation run := (Machine.run NEXT_PUBLIC_API_URL).
Local Abbreviation run_ui := (Machine.run_ui NEXT_PUBLIC_API_URL).

Lemma request_eqb_refl (r : Api.request) : Machine.request_eqb r r = true.
Proof.
  destruct r; simpl; apply String.eqb_refl.
Qed.

Lemma take_out_In (r : Api.request) (l : list Api.request) :
  In r l -> exists rest, Machine.take_out r l = Some rest.
Proof.
  induction l as [| x l IH]; simpl; [contradiction |].
  intros [-> | H].
  - rewrite request_eqb_refl. eauto.
  - destruct (Machine.request_eqb r x); [eauto |].
    destruct (IH H) as [rest ->]. simpl. eauto.
Qed.

Lemma step_ui_step (m m' : Machine.t) (e : Machine.event) :
  step_ui m e = Some m' -> step m e = Some m'.
Proof.
  unfold Machine.step_ui. destruct (Machine.offered m e); [auto | discriminate].
Qed.

Lemma run_ui_run (es : list Machine.event) :
  forall m m', run_ui m es = Some m' -> run m es = Some m'.
Proof.
  induction es as [| e es IH]; simpl; intros m m' H; [assumption |].
  destruct (step_ui m e) as [m1 |] eqn:E; [| discriminate].
  rewrite (step_ui_step _ _ _ E). now apply IH.
Qed.

(** An invariant of [step] holds after every run that starts where it holds. *)
Lemma run_invariant (P : Machine.t -> Prop) :
  (forall m e m', step m e = Some m' -> P m -> P m') ->
  forall es m m', run m es = Some m' -> P m -> P m'.
Proof.
  intros Hstep. induction es as [| e es IH]; simpl; intros m m' H Pm.
  - now injection H as <-.
  - destruct (step m e) as [m1 |] eqn:E; [| discriminate].
    eapply IH; eauto.
Qed.

Lemma pollStatus_resume_jobId c (s : Home.t) :
  Home.jobId (Home.pollStatus_resume c s) = Home.jobId s.
Proof.
  destruct c as [js | e]; simpl; [| reflexivity].
  destruct (Api.JobStatus.status js); reflexivity.
Qed.

Lemma pollStatus_resume_not_idle c (s : Home.t) :
  Home.state (Home.pollStatus_resume c s) = Home.AppState.idle ->
  Home.state s = Home.AppState.idle.
Proof.
  destruct c as [js | e]; simpl; [| discriminate].
  destruct (Api.JobStatus.status js); simpl; auto; discriminate.
Qed.

Lemma handleSubmit_resume_not_idle c (s : Home.t) :
  Home.state (Home.handleSubmit_resume c s) <> Home.AppState.idle.
Proof.
  destruct c; simpl; discriminate.
Qed.

Lemma handleSubmit_idle (s : Home.t) :
  Home.state (fst (Home.handleSubmit s)) = Home.AppState.idle ->
  Home.state s = Home.AppState.idle
  /\ Home.jobId (fst (Home.handleSubmit s)) = Home.jobId s.
Proof.
  unfold Home.handleSubmit.
  destruct (Home.isValidSpotifyUrl (Home.url s)); simpl; [discriminate | auto].
Qed.

Lemma send_session r (m : Machine.t) :
  Machine.session (Machine.send r m) = Machine.session m.
Proof.
  destruct r; reflexivity.
Qed.

Lemma open_window_session a (m : Machine.t) :
  Machine.session (Machine.open_window a m) = Machine.session m.
Proof.
  destruct a; reflexivity.
Qed.

Lemma step_idle_without_job (m m' : Machine.t) (e : Machine.event) :
  step m e = Some m' ->
  (Home.state (Machine.session m) = Home.AppState.idle ->
   Home.jobId (Machine.session m) = None) ->
  Home.state (Machine.session m') = Home.AppState.idle ->
  Home.jobId (Machine.session m') = None.
Proof.
  destruct e; simpl; intros H Inv.
  - injection H as <-. simpl. exact Inv.
  - destruct (Home.handleSubmit (Machine.session m)) as [s r] eqn:E.
    injection H as <-. rewrite send_session. simpl.
    intros I. change s with (fst (s, r)) in I |- *. rewrite <- E in I |- *.
    apply handleSubmit_idle in I as [I ->]. auto.
  - destruct (Machine.take_out _ _); [| discriminate].
    injection H as <-. simpl. intros I.
    now apply handleSubmit_resume_not_idle in I.
  - destruct (Home.interval _); [| discriminate].
    injection H as <-. rewrite send_session. exact Inv.
  - destruct (Machine.take_out _ _); [| discriminate].
    injection H as <-. simpl. intros I.
    rewrite pollStatus_resume_jobId.
    apply pollStatus_resume_not_idle in I. auto.
  - injection H as <-. rewrite open_window_session. exact Inv.
  - injection H as <-. reflexivity.
Qed.

(** C3 (as the code has it): after any sequence of typing, submit, create-job
    replies, ticks, poll replies, download and reset events, the job
    identifier is null whenever the state is [idle]; put the other way, a
    job identifier is held only in [loading], [downloading], [completed] or
    [error]. *)
Theorem idle_holds_no_job :
  forall (es : list Machine.event) (m : Machine.t),
    run Machine.initial es = Some m ->
    (Home.state (Machine.session m) = Home.AppState.idle ->
     Home.jobId (Machine.session m) = None)
    /\ (Home.jobId (Machine.session m) <> None ->
        Home.state (Machine.session m) = Home.AppState.loading
        \/ Home.state (Machine.session m) = Home.AppState.downloading
        \/ Home.state (Machine.session m) = Home.AppState.completed
        \/ Home.state (Machine.session m) = Home.AppState.error).
Proof.
  intros es m H.
  assert (Inv : Home.state (Machine.session m) = Home.AppState.idle ->
                Home.jobId (Machine.session m) = None).
  { apply (run_invariant
             (fun m => Home.state (Machine.session m) = Home.AppState.idle ->
                       Home.jobId (Machine.session m) = None))
      with (es := es) (m := Machine.initial).
    - intros m0 e m1. apply step_idle_without_job.
    - exact H.
    - reflexivity. }
  split; [exact Inv |].
  intros J. destruct (Home.state (Machine.session m)); auto.
  now specialize (Inv eq_refl).
Qed.

End MachineFacts.

Lemma idle_holds_no_job_witness :
  let u := "https://open.spotify.com/playlist/abc123" in
  let created := Api.Ok (Api.Parsed (Api.DownloadResponse.mk "J1" "started")) in
  let es := [Machine.Type_url u; Machine.Submit;
             Machine.Create_replied u created; Machine.Tick;
             Machine.Poll_replied "J1" (Api.Unreachable "Failed to fetch");
             Machine.Submit] in
  let m := Machine.mk
             (Home.mk u Home.AppState.loading (Some "J1") None None)
             [Api.POST_download u]
             [Api.POST_download u; Api.GET_status "J1"; Api.POST_download u]
             [] in
  Machine.run None Machine.initial es = Some m
  /\ (Home.state (Machine.session m) = Home.AppState.idle ->
      Home.jobId (Machine.session m) = None)
  /\ (Home.jobId (Machine.session m) <> None ->
      Home.state (Machine.session m) = Home.AppState.loading
      \/ Home.state (Machine.session m) = Home.AppState.downloading
      \/ Home.state (Machine.session m) = Home.AppState.completed
      \/ Home.state (Machine.session m) = Home.AppState.error).
Proof.
  intros u created es m. split; [reflexivity |].
  apply (idle_holds_no_job None es m). reflexivity.
Defined.

(** C3 (as stated) fails: when a poll has failed, the form is back with the
    state [error] and the job identifier still set; submitting again moves
    to [loading] without clearing it. *)
Lemma loading_keeps_previous_job :
  ~ (forall (es : list Machine.event) (m : Machine.t),
       Machine.run_ui None Machine.initial es = Some m ->
       Described.jobId_only_after_submission (Machine.session m)).
Proof.
  intros H.
  pose (u := "https://open.spotify.com/playlist/abc123").
  pose (created :=
          Api.Ok (E := Api.ErrorBody.t)
            (Api.Parsed (Api.DownloadResponse.mk "J1" "started"))).
  pose (es := [Machine.Type_url u; Machine.Submit;
               Machine.Create_replied u created; Machine.Tick;
               Machine.Poll_replied "J1" (Api.Unreachable "Failed to fetch");
               Machine.Submit]).
  destruct (H es _ eq_refl) as [_ L].
  specialize (L (or_intror eq_refl)). discriminate L.
Qed.

(** ** Replies that come in late *)

Section LateReplyFacts.

Variable NEXT_PUBLIC_API_URL : option string.

Local Abbreviation step := (Machine.step NEXT_PUBLIC_API_URL).

Lemma handleReset_initial (s : Home.t) : Home.handleReset s = Home.initial.
Proof.
  reflexivity.
Qed.

(** A poll reply is handed to whatever the session is when it comes in:
    neither the state nor the job identifier is looked at. *)
Lemma poll_reply_applied (m : Machine.t) (j : string)
    (r : Api.reply Api.JobStatus.t unit) :
  In (Api.GET_status j) (Machine.inflight m) ->
  exists rest,
    Machine.take_out (Api.GET_status j) (Machine.inflight m) = Some rest
    /\ step m (Machine.Poll_replied j r)
       = Some (Machine.mk
                 (Home.pollStatus_resume (Api.getJobStatus_resume r)
                    (Machine.session m))
                 rest (Machine.sent m) (Machine.opened m)).
Proof.
  intros H. destruct (take_out_In _ _ H) as [rest E].
  exists rest. split; [exact E |]. simpl. now rewrite E.
Qed.

(** C4 (as the code has it): a poll that is under way when reset is
    performed is not cancelled, and its reply is not ignored.  Reset stops
    the interval, so no new poll is sent; the late reply is then applied to
    the reset session as to any other (and likewise to a session that has
    been resubmitted): the snapshot becomes the reply's, the state becomes
    [completed] or [error] when the reply says so, and [error] when the call
    failed.  State and error stay as reset left them only when the reply
    reports [pending] or [downloading]. *)
Theorem late_reply_applied_after_reset :
  forall (m : Machine.t) (j : string) (r : Api.reply Api.JobStatus.t unit),
    In (Api.GET_status j) (Machine.inflight m) ->
    (exists m1 m2,
        step m Machine.Reset = Some m1
        /\ Machine.session m1 = Home.initial
        /\ step m1 Machine.Tick = None
        /\ step m1 (Machine.Poll_replied j r) = Some m2
        /\ Home.jobId (Machine.session m2) = None
        /\ match r with
           | Api.Ok (Api.Parsed js) =>
               Home.status (Machine.session m2) = Some js
               /\ match Api.JobStatus.status js with
                  | Api.Status.completed =>
                      Home.state (Machine.session m2) = Home.AppState.completed
                      /\ Home.error (Machine.session m2) = None
                  | Api.Status.error =>
                      Home.state (Machine.session m2) = Home.AppState.error
                      /\ Home.error (Machine.session m2)
                         = Some (Js.or_else (Api.JobStatus.error js)
                                            "Download failed")
                  | Api.Status.pending | Api.Status.downloading =>
                      Home.state (Machine.session m2) = Home.AppState.idle
                      /\ Home.error (Machine.session m2) = None
                  end
           | Api.Ok (Api.Malformed _) | Api.NotOk _ | Api.Unreachable _ =>
               Home.status (Machine.session m2) = None
               /\ Home.state (Machine.session m2) = Home.AppState.error
               /\ Home.error (Machine.session m2)
                  = Some "Failed to check status"
           end)
    /\ (forall s : Home.t,
          exists m2,
            step (Machine.with_session s m) (Machine.Poll_replied j r) = Some m2
            /\ Machine.session m2
               = Home.pollStatus_resume (Api.getJobStatus_resume r) s).
Proof.
  intros m j r H. split.
  - destruct (poll_reply_applied
                (Machine.with_session (Home.handleReset (Machine.session m)) m)
                j r H) as (rest & _ & E).
    eexists _, _. split; [reflexivity |].
    split; [reflexivity |]. split; [reflexivity |].
    split; [exact E |]. simpl.
    destruct r as [msg | [js | msg] | b]; simpl; auto.
    destruct (Api.JobStatus.status js); simpl; auto.
  - intros s.
    destruct (poll_reply_applied (Machine.with_session s m) j r H)
      as (rest & _ & E).
    eexists. split; [exact E | reflexivity].
Qed.

End LateReplyFacts.

Lemma late_reply_applied_after_reset_witness :
  let done := Api.JobStatus.mk "J1" Api.Status.completed [] 2 None None in
  let s := Home.mk "" Home.AppState.completed (Some "J1") (Some done) None in
  let m := Machine.mk s [Api.GET_status "J1"]
             [Api.POST_download "u"; Api.GET_status "J1"; Api.GET_status "J1"]
             [] in
  let r : Api.reply Api.JobStatus.t unit := Api.Ok (Api.Parsed done) in
  In (Api.GET_status "J1") (Machine.inflight m)
  /\ exists m1 m2,
      Machine.step None m Machine.Reset = Some m1
      /\ Machine.session m1 = Home.initial
      /\ Machine.step None m1 (Machine.Poll_replied "J1" r) = Some m2
      /\ Home.state (Machine.session m2) = Home.AppState.completed
      /\ Home.status (Machine.session m2) = Some done.
Proof.
  intros done s m r.
  assert (I : In (Api.GET_status "J1") (Machine.inflight m))
    by (simpl; auto).
  split; [exact I |].
  destruct (late_reply_applied_after_reset None m "J1" r I)
    as [(m1 & m2 & E1 & E2 & _ & E3 & _ & E4 & E5 & _) _].
  exists m1, m2. auto.
Defined.

(** C4 (as stated) fails: of two polls under way, the first to answer
    reports [completed]; the user resets; the second answer, [completed] as
    well, then moves the reset session from [idle] to [completed] and fills
    in its snapshot. *)
Lemma late_reply_overwrites_reset : ~ Described.late_reply_ignored None.
Proof.
  intros H.
  pose (u := "https://open.spotify.com/playlist/abc123").
  pose (created :=
          Api.Ok (E := Api.ErrorBody.t)
            (Api.Parsed (Api.DownloadResponse.mk "J1" "started"))).
  pose (done := Api.JobStatus.mk "J1" Api.Status.completed [] 2 None None).
  pose (r := Api.Ok (E := unit) (Api.Parsed done)).
  pose (es := [Machine.Type_url u; Machine.Submit;
               Machine.Create_replied u created; Machine.Tick; Machine.Tick;
               Machine.Poll_replied "J1" r]).
  destruct (H es _ "J1" r _ _ eq_refl eq_refl eq_refl) as [E _].
  discriminate E.
Qed.

(** ** Failures of the two calls *)

Section FailureFacts.

Variable NEXT_PUBLIC_API_URL : option string.

Local Abbreviation step := (Machine.step NEXT_PUBLIC_API_URL).

Lemma create_reply_applied (m : Machine.t) (u : string)
    (r : Api.reply Api.DownloadResponse.t Api.ErrorBody.t) :
  In (Api.POST_download u) (Machine.inflight m) ->
  exists rest,
    Machine.take_out (Api.POST_download u) (Machine.inflight m) = Some rest
    /\ step m (Machine.Create_replied u r)
       = Some (Machine.mk
                 (Home.handleSubmit_resume (Api.startDownload_resume r)
                    (Machine.session m))
                 rest (Machine.sent m) (Machine.opened m)).
Proof.
  intros H. destruct (take_out_In _ _ H) as [rest E].
  exists rest. split; [exact E |]. simpl. now rewrite E.
Qed.

(** C5 (as the code has it): when the create-job call that a submit started
    is answered with a non-2xx status and a JSON body, the state becomes
    [error] and the message stored is the body's [detail] if that is a
    non-empty string (["quota exceeded"] gives ["quota exceeded"]), and
    ["Failed to start download"] if [detail] is missing or empty; the URL,
    the job identifier and the snapshot are not touched. *)
Theorem create_failure_message :
  forall (m : Machine.t) (u : string) (detail : option string),
    In (Api.POST_download u) (Machine.inflight m) ->
    exists m',
      step m (Machine.Create_replied u
                (Api.NotOk (Api.Parsed (Api.ErrorBody.mk detail)))) = Some m'
      /\ Home.state (Machine.session m') = Home.AppState.error
      /\ Home.error (Machine.session m')
         = Some (Js.or_else detail "Failed to start download")
      /\ (forall d, detail = Some d -> d <> "" ->
                    Home.error (Machine.session m') = Some d)
      /\ (detail = None \/ detail = Some "" ->
          Home.error (Machine.session m') = Some "Failed to start download")
      /\ Home.url (Machine.session m') = Home.url (Machine.session m)
      /\ Home.jobId (Machine.session m') = Home.jobId (Machine.session m)
      /\ Home.status (Machine.session m') = Home.status (Machine.session m).
Proof.
  intros m u detail H.
  destruct (create_reply_applied m u
              (Api.NotOk (Api.Parsed (Api.ErrorBody.mk detail))) H)
    as (rest & _ & E).
  eexists. split; [exact E |]. simpl. repeat split.
  - intros d -> Hd. destruct d; [contradiction | reflexivity].
  - intros [-> | ->]; reflexivity.
Qed.

(** C6: when the reply to a poll reports status [error], the state becomes
    [error] and the message stored is the one the service reported, or
    ["Download failed"] when it reported none (null, or an empty string);
    when the call itself fails (a non-2xx status, a body that does not
    parse, or no answer at all) the state becomes [error] with the message
    ["Failed to check status"].  Either way the interval is off
    afterwards. *)
Theorem poll_failure_messages :
  forall (m : Machine.t) (j : string) (r : Api.reply Api.JobStatus.t unit),
    In (Api.GET_status j) (Machine.inflight m) ->
    exists m',
      step m (Machine.Poll_replied j r) = Some m'
      /\ match r with
         | Api.Ok (Api.Parsed js) =>
             Api.JobStatus.status js = Api.Status.error ->
             Home.state (Machine.session m') = Home.AppState.error
             /\ Home.error (Machine.session m')
                = Some (Js.or_else (Api.JobStatus.error js) "Download failed")
             /\ (forall e, Api.JobStatus.error js = Some e -> e <> "" ->
                           Home.error (Machine.session m') = Some e)
             /\ (Api.JobStatus.error js = None ->
                 Home.error (Machine.session m') = Some "Download failed")
             /\ Home.interval (Machine.session m') = None
         | Api.Ok (Api.Malformed _) | Api.NotOk _ | Api.Unreachable _ =>
             Home.state (Machine.session m') = Home.AppState.error
             /\ Home.error (Machine.session m') = Some "Failed to check status"
             /\ Home.interval (Machine.session m') = None
         end.
Proof.
  intros m j r H.
  destruct (poll_reply_applied NEXT_PUBLIC_API_URL m j r H) as (rest & _ & E).
  eexists. split; [exact E |].
  destruct r as [msg | [js | msg] | b]; simpl; auto.
  intros S. rewrite S. simpl. repeat split.
  - intros e -> He. destruct e; [contradiction | reflexivity].
  - intros ->. reflexivity.
Qed.

End FailureFacts.

Lemma create_failure_message_witness :
  let u := "https://open.spotify.com/playlist/abc123" in
  let m := Machine.mk (Home.mk u Home.AppState.loading None None None)
             [Api.POST_download u] [Api.POST_download u] [] in
  let rejected :=
    Api.NotOk (Api.Parsed (Api.ErrorBody.mk (Some "quota exceeded"))) in
  In (Api.POST_download u) (Machine.inflight m)
  /\ exists m',
      Machine.step None m (Machine.Create_replied u rejected) = Some m'
      /\ Home.state (Machine.session m') = Home.AppState.error
      /\ Home.error (Machine.session m') = Some "quota exceeded".
Proof.
  intros u m rejected.
  assert (I : In (Api.POST_download u) (Machine.inflight m))
    by (simpl; auto).
  split; [exact I |].
  destruct (create_failure_message None m u (Some "quota exceeded") I)
    as (m' & E & S & M & _).
  exists m'. auto.
Defined.

(** C5 (as stated) fails: an empty [detail] is replaced by the generic
    message. *)
Lemma empty_detail_not_stored : ~ Described.detail_stored_verbatim None.
Proof.
  intros H.
  pose (u := "https://open.spotify.com/playlist/abc123").
  destruct (H [Machine.Type_url u; Machine.Submit] _ u "" _
              eq_refl eq_refl eq_refl) as [_ E].
  discriminate E.
Qed.

(** The failure scenario from end to end. *)
Example quota_exceeded_scenario :
  let u := "https://open.spotify.com/playlist/abc123" in
  let rejected :=
    Api.NotOk (Api.Parsed (Api.ErrorBody.mk (Some "quota exceeded"))) in
  option_map Machine.session
    (Machine.run_ui None Machine.initial
       [Machine.Type_url u; Machine.Submit; Machine.Create_replied u rejected])
  = Some (Home.mk u Home.AppState.error None None (Some "quota exceeded")).
Proof.
  reflexivity.
Qed.

Lemma poll_failure_messages_witness :
  let failed :=
    Api.JobStatus.mk "J1" Api.Status.error [] 2 None (Some "no such playlist") in
  let s := Home.mk "https://open.spotify.com/playlist/abc123"
             Home.AppState.downloading (Some "J1") None None in
  let m := Machine.mk s [Api.GET_status "J1"]
             [Api.POST_download (Home.url s); Api.GET_status "J1"] [] in
  In (Api.GET_status "J1") (Machine.inflight m)
  /\ (exists m',
        Machine.step None m
          (Machine.Poll_replied "J1" (Api.Ok (Api.Parsed failed))) = Some m'
        /\ Home.state (Machine.session m') = Home.AppState.error
        /\ Home.error (Machine.session m') = Some "no such playlist")
  /\ (exists m',
        Machine.step None m
          (Machine.Poll_replied "J1" (Api.NotOk (Api.Parsed tt))) = Some m'
        /\ Home.state (Machine.session m') = Home.AppState.error
        /\ Home.error (Machine.session m') = Some "Failed to check status").
Proof.
  intros failed s m.
  assert (I : In (Api.GET_status "J1") (Machine.inflight m))
    by (simpl; auto).
  split; [exact I |]. split.
  - destruct (poll_failure_messages None m "J1"
                (Api.Ok (Api.Parsed failed)) I) as (m' & E & P).
    destruct (P eq_refl) as (S & M & _).
    exists m'. auto.
  - destruct (poll_failure_messages None m "J1"
                (Api.NotOk (Api.Parsed tt)) I) as (m' & E & S & M & _).
    exists m'. auto.
Defined.

(** ** The interval *)

Section IntervalFacts.

Variable NEXT_PUBLIC_API_URL : option string.

Local Abbreviation step := (Machine.step NEXT_PUBLIC_API_URL).
Local Abbreviation run := (Machine.run NEXT_PUBLIC_API_URL).

Lemma polls_app (l : list Api.request) (q : Api.request) :
  Machine.polls (l ++ [q])
  = if Machine.is_poll q then (Machine.polls l ++ [q])%list
    else Machine.polls l.
Proof.
  unfold Machine.polls. rewrite filter_app. simpl.
  destruct (Machine.is_poll q); [reflexivity | apply app_nil_r].
Qed.

Lemma interval_None (s : Home.t) :
  Home.state s <> Home.AppState.downloading -> Home.interval s = None.
Proof.
  unfold Home.interval. destruct (Home.state s); simpl; congruence.
Qed.

Lemma pollStatus_resume_not_downloading c (s : Home.t) :
  Home.state s <> Home.AppState.downloading ->
  Home.state (Home.pollStatus_resume c s) <> Home.AppState.downloading.
Proof.
  destruct c as [js | e]; simpl; [| discriminate].
  destruct (Api.JobStatus.status js); simpl; auto; discriminate.
Qed.

Lemma step_outside_downloading (m m' : Machine.t) (e : Machine.event) :
  Home.state (Machine.session m) <> Home.AppState.downloading ->
  Machine.is_create_reply e = false ->
  step m e = Some m' ->
  Home.state (Machine.session m') <> Home.AppState.downloading
  /\ Machine.polls (Machine.sent m') = Machine.polls (Machine.sent m).
Proof.
  intros D C. destruct e; simpl in *; try discriminate C; intros H.
  - injection H as <-. auto.
  - unfold Home.handleSubmit in H.
    destruct (Home.isValidSpotifyUrl _); simpl in H; injection H as <-; simpl.
    + split; [discriminate | apply polls_app].
    + auto.
  - rewrite (interval_None _ D) in H. discriminate H.
  - destruct (Machine.take_out _ _); [| discriminate].
    injection H as <-. simpl.
    split; [now apply pollStatus_resume_not_downloading | reflexivity].
  - injection H as <-.
    destruct (Home.handleDownload _ _); simpl; auto.
  - injection H as <-. simpl. split; [discriminate | reflexivity].
Qed.

(** Outside [downloading], and until another create-job call succeeds, no
    poll is sent. *)
Lemma no_polls_outside_downloading (es : list Machine.event) :
  forall m m',
    Home.state (Machine.session m) <> Home.AppState.downloading ->
    forallb (fun e => negb (Machine.is_create_reply e)) es = true ->
    run m es = Some m' ->
    Machine.polls (Machine.sent m') = Machine.polls (Machine.sent m).
Proof.
  induction es as [| e es IH]; simpl; intros m m' D C H.
  - now injection H as <-.
  - apply andb_true_iff in C as [Ce Ces].
    apply negb_true_iff in Ce.
    destruct (step m e) as [m1 |] eqn:E; [| discriminate].
    destruct (step_outside_downloading _ _ _ D Ce E) as [D1 P1].
    rewrite <- P1. now apply IH.
Qed.

Lemma interval_Some (s : Home.t) (k : nat) :
  Home.interval s = Some k ->
  Home.state s = Home.AppState.downloading
  /\ exists j, Home.jobId s = Some j /\ Js.truthy j = true.
Proof.
  unfold Home.interval.
  destruct (Home.state s); simpl; try discriminate.
  destruct (Home.jobId s) as [j |]; simpl; [| discriminate].
  destruct (Js.truthy j) eqn:T; simpl; [| discriminate]. eauto.
Qed.

(** What each event adds to the requests sent: a tick adds one poll, for
    the job identifier held, and happens in [downloading] only; a submit
    adds one create-job request or nothing; no other event adds anything. *)
Lemma step_sent (m m' : Machine.t) (e : Machine.event) :
  step m e = Some m' ->
  match e with
  | Machine.Tick =>
      exists j,
        Home.jobId (Machine.session m) = Some j /\ j <> ""
        /\ Home.state (Machine.session m) = Home.AppState.downloading
        /\ Machine.sent m' = (Machine.sent m ++ [Api.GET_status j])%list
  | Machine.Submit =>
      Machine.sent m' = Machine.sent m
      \/ Machine.sent m'
         = (Machine.sent m
            ++ [Api.POST_download (Home.url (Machine.session m))])%list
  | _ => Machine.sent m' = Machine.sent m
  end.
Proof.
  destruct e; simpl; intros H.
  - now injection H as <-.
  - unfold Home.handleSubmit in H.
    destruct (Home.isValidSpotifyUrl _); simpl in H; injection H as <-;
      [right | left]; reflexivity.
  - destruct (Machine.take_out _ _); [| discriminate]. now injection H as <-.
  - destruct (Home.interval (Machine.session m)) as [k |] eqn:I;
      [| discriminate].
    apply interval_Some in I as (D & j & J & T).
    injection H as <-. unfold Home.pollStatus. rewrite J, T. simpl.
    exists j. repeat split; auto. destruct j; [discriminate T | discriminate].
  - destruct (Machine.take_out _ _); [| discriminate]. now injection H as <-.
  - injection H as <-. now destruct (Home.handleDownload _ _).
  - now injection H as <-.
Qed.

Lemma creates_app (l : list Api.request) (q : Api.request) :
  Machine.creates (l ++ [q])
  = if Machine.is_poll q then Machine.creates l
    else (Machine.creates l ++ [q])%list.
Proof.
  unfold Machine.creates. rewrite filter_app. simpl.
  destruct (Machine.is_poll q); simpl; [apply app_nil_r | reflexivity].
Qed.

(** Counted over a whole run: as many polls as ticks, and at most as many
    create-job requests as submits. *)
Lemma run_sent_counts (es : list Machine.event) :
  forall m m',
    run m es = Some m' ->
    length (Machine.polls (Machine.sent m'))
    = (length (Machine.polls (Machine.sent m)) + Machine.ticks es)%nat
    /\ (length (Machine.creates (Machine.sent m'))
        <= length (Machine.creates (Machine.sent m)) + Machine.submits es)%nat
    /\ (Machine.submits es = 0%nat ->
        Machine.creates (Machine.sent m') = Machine.creates (Machine.sent m)).
Proof.
  unfold Machine.ticks, Machine.submits.
  induction es as [| e es IH]; simpl; intros m m' H.
  - injection H as <-. repeat split; auto; lia.
  - destruct (step m e) as [m1 |] eqn:E; [| discriminate].
    destruct (IH m1 m' H) as (P & C & Z).
    apply step_sent in E.
    destruct e; simpl in *;
      try (rewrite <- E; repeat split; auto; lia).
    + destruct E as [E | E]; rewrite E in P, C.
      * repeat split; [exact P | lia | discriminate].
      * rewrite polls_app in P. rewrite creates_app in C. simpl in P, C.
        rewrite length_app in C. simpl in C.
        repeat split; [exact P | lia | discriminate].
    + destruct E as (j & _ & _ & _ & E). rewrite E in P, C, Z.
      rewrite polls_app in P. rewrite creates_app in C, Z. simpl in P, C, Z.
      rewrite length_app in P. simpl in P.
      repeat split; [lia | exact C | exact Z].
Qed.

(** C7 (as the code has it): in [downloading] with a non-empty job
    identifier the interval runs with a period of 1000 ms, and each of its
    ticks sends exactly one get-status request, for that identifier, and
    changes nothing else.  Nothing but a tick sends a poll, so over any run
    the polls sent are as many as the ticks.  A poll reply that reports
    [completed] moves the state to [completed].  In any state other than
    [downloading] no interval runs, no tick happens, and no poll request is
    sent for as long as no further create-job call succeeds. *)
Theorem one_poll_per_tick_until_done :
  forall (m : Machine.t) (j : string),
    Home.state (Machine.session m) = Home.AppState.downloading ->
    Home.jobId (Machine.session m) = Some j ->
    j <> "" ->
    Home.interval (Machine.session m) = Some 1000%nat
    /\ step m Machine.Tick
       = Some (Machine.mk (Machine.session m)
                 (Machine.inflight m ++ [Api.GET_status j])
                 (Machine.sent m ++ [Api.GET_status j])
                 (Machine.opened m))
    /\ (forall js,
          Api.JobStatus.status js = Api.Status.completed ->
          Home.state
            (Home.pollStatus_resume
               (Api.getJobStatus_resume (E := unit) (Api.Ok (Api.Parsed js)))
               (Machine.session m))
          = Home.AppState.completed)
    /\ (forall m1,
          Home.state (Machine.session m1) <> Home.AppState.downloading ->
          Home.interval (Machine.session m1) = None
          /\ step m1 Machine.Tick = None
          /\ forall es m2,
               forallb (fun e => negb (Machine.is_create_reply e)) es = true ->
               run m1 es = Some m2 ->
               Machine.polls (Machine.sent m2) = Machine.polls (Machine.sent m1))
    /\ (forall m1 e m2,
          step m1 e = Some m2 ->
          if Machine.is_tick e
          then exists i,
                 Home.jobId (Machine.session m1) = Some i /\ i <> ""
                 /\ Home.state (Machine.session m1) = Home.AppState.downloading
                 /\ Machine.sent m2
                    = (Machine.sent m1 ++ [Api.GET_status i])%list
          else Machine.polls (Machine.sent m2) = Machine.polls (Machine.sent m1))
    /\ (forall es m2,
          run m es = Some m2 ->
          length (Machine.polls (Machine.sent m2))
          = (length (Machine.polls (Machine.sent m)) + Machine.ticks es)%nat).
Proof.
  intros m j D J Hj.
  assert (T : Js.truthy j = true) by (destruct j; [contradiction | reflexivity]).
  assert (I : Home.interval (Machine.session m) = Some 1000%nat).
  { unfold Home.interval. rewrite D, J. simpl. now rewrite T. }
  split; [exact I |]. split; [| split; [| split; [| split]]].
  - simpl. rewrite I. unfold Home.pollStatus. rewrite J, T. reflexivity.
  - intros js E. simpl. now rewrite E.
  - intros m1 D1. split; [now apply interval_None |].
    split; [simpl; now rewrite interval_None |].
    intros es m2 C R. now apply no_polls_outside_downloading with es.
  - intros m1 e m2 H. apply step_sent in H.
    destruct e; simpl in *; try (now rewrite H).
    + destruct H as [-> | ->]; [reflexivity | now rewrite polls_app].
    + exact H.
  - intros es m2 R. now apply (run_sent_counts es m m2 R).
Qed.

End IntervalFacts.

Lemma one_poll_per_tick_until_done_witness :
  let s := Home.mk "https://open.spotify.com/playlist/abc123"
             Home.AppState.downloading (Some "J1") None None in
  let m := Machine.mk s [] [Api.POST_download (Home.url s)] [] in
  (Home.state s = Home.AppState.downloading
   /\ Home.jobId s = Some "J1" /\ "J1" <> "")
  /\ Home.interval s = Some 1000%nat
  /\ Machine.step None m Machine.Tick
     = Some (Machine.mk s [Api.GET_status "J1"]
               [Api.POST_download (Home.url s); Api.GET_status "J1"] []).
Proof.
  intros s m.
  assert (N : "J1" <> "") by discriminate.
  split; [repeat split; exact N |].
  destruct (one_poll_per_tick_until_done None m "J1" eq_refl eq_refl N)
    as (I & T & _).
  split; [exact I | exact T].
Defined.

(** C7 (as stated) fails: if create-job answers with an empty job
    identifier, the state is [downloading] but the effect does not start the
    interval, so no tick happens and no poll is sent. *)
Lemma empty_job_id_never_polled : ~ Described.polls_while_downloading None.
Proof.
  intros H.
  pose (u := "https://open.spotify.com/playlist/abc123").
  pose (created :=
          Api.Ok (E := Api.ErrorBody.t)
            (Api.Parsed (Api.DownloadResponse.mk "" "started"))).
  pose (es := [Machine.Type_url u; Machine.Submit;
               Machine.Create_replied u created]).
  destruct (H es _ eq_refl eq_refl) as (q & _ & E).
  discriminate E.
Qed.

(** ** Reset and download *)

Section ResetDownloadFacts.

Variable NEXT_PUBLIC_API_URL : option string.

Local Abbreviation step := (Machine.step NEXT_PUBLIC_API_URL).

(** C8: reset, from whatever state, gives the state [idle], the empty URL
    and no job identifier, snapshot or error; the interval, if one was
    running, is stopped.  Requests sent earlier are left as they are. *)
Theorem reset_clears_session :
  forall m : Machine.t,
    exists m',
      step m Machine.Reset = Some m'
      /\ Home.state (Machine.session m') = Home.AppState.idle
      /\ Home.url (Machine.session m') = ""
      /\ Home.jobId (Machine.session m') = None
      /\ Home.status (Machine.session m') = None
      /\ Home.error (Machine.session m') = None
      /\ Home.interval (Machine.session m') = None
      /\ Machine.sent m' = Machine.sent m
      /\ Machine.inflight m' = Machine.inflight m.
Proof.
  intros m. eexists. split; [reflexivity |]. simpl. repeat split.
Qed.

(** C9: the download address of job [j] is the configured base address
    (["http://localhost:8000"] when none is configured) followed by
    ["/api/download/"], [j] and ["/zip"]; for ["J1"] it ends in
    ["/api/download/J1/zip"].  Building it, and the download action that
    hands it to [window.open], send no request and change nothing of the
    session. *)
Theorem download_reference :
  forall j : string,
    Api.getDownloadUrl NEXT_PUBLIC_API_URL j
    = Api.API_URL NEXT_PUBLIC_API_URL ++ "/api/download/" ++ j ++ "/zip"
    /\ Api.getDownloadUrl NEXT_PUBLIC_API_URL "J1"
       = Api.API_URL NEXT_PUBLIC_API_URL ++ "/api/download/J1/zip"
    /\ Api.getDownloadUrl None j
       = "http://localhost:8000/api/download/" ++ j ++ "/zip"
    /\ (forall m : Machine.t,
          exists m',
            step m Machine.Download = Some m'
            /\ Machine.session m' = Machine.session m
            /\ Machine.sent m' = Machine.sent m
            /\ Machine.inflight m' = Machine.inflight m
            /\ (Home.jobId (Machine.session m) = Some j -> j <> "" ->
                Machine.opened m'
                = (Machine.opened m
                   ++ [Api.getDownloadUrl NEXT_PUBLIC_API_URL j])%list)).
Proof.
  intros j. repeat split.
  intros m. eexists. split; [reflexivity |].
  unfold Home.handleDownload.
  destruct (Home.jobId (Machine.session m)) as [i |]; simpl.
  - destruct i; simpl; repeat split; intros E; injection E as <-;
      [contradiction | reflexivity].
  - repeat split. discriminate.
Qed.

End ResetDownloadFacts.

(** The success scenario from end to end. *)
Example download_scenario :
  let u := "https://open.spotify.com/playlist/abc123" in
  let created := Api.Ok (Api.Parsed (Api.DownloadResponse.mk "J1" "started")) in
  let item := Api.ProgressItem.mk "A" "completed" "" in
  let half := Api.JobStatus.mk "J1" Api.Status.downloading [item] 2 None None in
  let done := Api.JobStatus.mk "J1" Api.Status.completed [item] 2 None None in
  let es1 := [Machine.Type_url u; Machine.Submit;
              Machine.Create_replied u created; Machine.Tick;
              Machine.Poll_replied "J1" (Api.Ok (Api.Parsed half))] in
  let es2 := [Machine.Tick;
              Machine.Poll_replied "J1" (Api.Ok (Api.Parsed done));
              Machine.Download] in
  exists m1 m2,
    Machine.run_ui None Machine.initial es1 = Some m1
    /\ Home.state (Machine.session m1) = Home.AppState.downloading
    /\ Home.progressValue (Machine.session m1) = Js.of_Z 50
    /\ Machine.run_ui None m1 es2 = Some m2
    /\ Home.state (Machine.session m2) = Home.AppState.completed
    /\ Machine.opened m2 = ["http://localhost:8000/api/download/J1/zip"].
Proof.
  simpl. eexists _, _.
  split; [reflexivity |]. split; [reflexivity |].
  split; [vm_compute; reflexivity |]. repeat split.
Qed.

(** ** The path without failures *)

Section ProgressOfAJob.

Variable NEXT_PUBLIC_API_URL : option string.

Local Abbreviation step := (Machine.step NEXT_PUBLIC_API_URL).

(** A submit that passes the validation moves to [loading] and sends the
    create-job request; when that is answered with a 2xx status and a body
    that parses, the state becomes [downloading] and the job identifier is
    the one in the answer. *)
Theorem valid_submit_then_created :
  forall (m : Machine.t) (response : Api.DownloadResponse.t),
    Home.isValidSpotifyUrl (Home.url (Machine.session m)) = true ->
    exists m1 m2,
      step m Machine.Submit = Some m1
      /\ Home.state (Machine.session m1) = Home.AppState.loading
      /\ Home.error (Machine.session m1) = None
      /\ Machine.sent m1
         = (Machine.sent m
            ++ [Api.POST_download (Home.url (Machine.session m))])%list
      /\ step m1
           (Machine.Create_replied (Home.url (Machine.session m))
              (Api.Ok (Api.Parsed response))) = Some m2
      /\ Home.state (Machine.session m2) = Home.AppState.downloading
      /\ Home.jobId (Machine.session m2)
         = Some (Api.DownloadResponse.job_id response).
Proof.
  intros m response V.
  pose (q := Api.POST_download (Home.url (Machine.session m))).
  pose (s1 := Home.setState Home.AppState.loading
                (Home.setError None (Machine.session m))).
  pose (m1 := Machine.mk s1 (Machine.inflight m ++ [q])
                (Machine.sent m ++ [q]) (Machine.opened m)).
  assert (E1 : step m Machine.Submit = Some m1).
  { simpl. unfold Home.handleSubmit. rewrite V. reflexivity. }
  assert (I : In q (Machine.inflight m1)).
  { simpl. apply in_or_app. right. simpl. auto. }
  destruct (create_reply_applied NEXT_PUBLIC_API_URL m1 _
              (Api.Ok (Api.Parsed response)) I) as (rest & _ & E2).
  exists m1. eexists. split; [exact E1 |].
  split; [reflexivity |]. split; [reflexivity |]. split; [reflexivity |].
  split; [exact E2 |]. split; reflexivity.
Qed.

(** The snapshot is replaced whole by every poll that is answered with a
    body: nothing of the previous snapshot is kept.  While the answer
    reports [pending] or [downloading] nothing else changes. *)
Theorem poll_replaces_snapshot :
  forall (m : Machine.t) (j : string) (js : Api.JobStatus.t),
    In (Api.GET_status j) (Machine.inflight m) ->
    exists m',
      step m (Machine.Poll_replied j (Api.Ok (Api.Parsed js))) = Some m'
      /\ Home.status (Machine.session m') = Some js
      /\ Home.url (Machine.session m') = Home.url (Machine.session m)
      /\ Home.jobId (Machine.session m') = Home.jobId (Machine.session m)
      /\ (Api.JobStatus.status js = Api.Status.pending
          \/ Api.JobStatus.status js = Api.Status.downloading ->
          Home.state (Machine.session m') = Home.state (Machine.session m)
          /\ Home.error (Machine.session m') = Home.error (Machine.session m)).
Proof.
  intros m j js H.
  destruct (poll_reply_applied NEXT_PUBLIC_API_URL m j
              (Api.Ok (Api.Parsed js)) H) as (rest & _ & E).
  eexists. split; [exact E |]. simpl.
  destruct (Api.JobStatus.status js); simpl;
    (split; [reflexivity |]); (split; [reflexivity |]);
    (split; [reflexivity |]);
    intros [D | D]; try discriminate D; split; reflexivity.
Qed.

End ProgressOfAJob.

Lemma valid_submit_then_created_witness :
  let u := "https://open.spotify.com/album/4aawyAB9vmqN3uQ7FjRGTy" in
  let m := Machine.mk (Home.setUrl u Home.initial) [] [] [] in
  let response := Api.DownloadResponse.mk "J1" "Download started" in
  Home.isValidSpotifyUrl u = true
  /\ exists m1 m2,
      Machine.step None m Machine.Submit = Some m1
      /\ Machine.step None m1
           (Machine.Create_replied u (Api.Ok (Api.Parsed response))) = Some m2
      /\ Home.state (Machine.session m2) = Home.AppState.downloading
      /\ Home.jobId (Machine.session m2) = Some "J1".
Proof.
  intros u m response.
  assert (V : Home.isValidSpotifyUrl u = true) by reflexivity.
  split; [exact V |].
  destruct (valid_submit_then_created None m response V)
    as (m1 & m2 & E1 & _ & _ & _ & E2 & S & J).
  exists m1, m2. auto.
Defined.

Lemma poll_replaces_snapshot_witness :
  let item := Api.ProgressItem.mk "A" "completed" "" in
  let old := Api.JobStatus.mk "J1" Api.Status.pending [] 0 None None in
  let new := Api.JobStatus.mk "J1" Api.Status.downloading [item] 2 None None in
  let s := Home.mk "https://open.spotify.com/playlist/abc123"
             Home.AppState.downloading (Some "J1") (Some old) None in
  let m := Machine.mk s [Api.GET_status "J1"] [Api.GET_status "J1"] [] in
  In (Api.GET_status "J1") (Machine.inflight m)
  /\ exists m',
      Machine.step None m
        (Machine.Poll_replied "J1" (Api.Ok (Api.Parsed new))) = Some m'
      /\ Home.status (Machine.session m') = Some new
      /\ Home.state (Machine.session m') = Home.AppState.downloading.
Proof.
  intros item old new s m.
  assert (I : In (Api.GET_status "J1") (Machine.inflight m))
    by (simpl; auto).
  split; [exact I |].
  destruct (poll_replaces_snapshot None m "J1" new I)
    as (m' & E & S & _ & _ & P).
  destruct (P (or_intror eq_refl)) as [D _].
  exists m'. auto.
Defined.

(** ** More on the validation of the URL *)

Section UrlFacts.

(** Only the start of the input is looked at: whatever is appended to an
    input that passes the validation, the result passes it too. *)
Theorem valid_url_extends :
  forall u w : string,
    Home.isValidSpotifyUrl u = true ->
    Home.isValidSpotifyUrl (u ++ w) = true.
Proof.
  intros u w V.
  apply isValidSpotifyUrl_spec in V as (rest & k & id & Hk & Hne & Hall & ->).
  apply isValidSpotifyUrl_spec.
  exists (rest ++ w), k, id. repeat split; auto.
  rewrite !append_assoc. reflexivity.
Qed.

(** Of the identifier only the first character is checked: the input passes
    exactly when it is [https://open.spotify.com/], then [playlist],
    [album] or [track], a slash, one character among [a-z], [A-Z], [0-9],
    and then anything at all. *)
Theorem valid_url_first_character :
  forall u : string,
    Home.isValidSpotifyUrl u = true
    <-> exists k c rest,
          In k Described.kinds
          /\ Described.is_alnum c = true
          /\ u = "https://open.spotify.com/" ++ k ++ "/" ++ String c rest.
Proof.
  intros u. rewrite isValidSpotifyUrl_spec. split.
  - intros (rest & k & id & Hk & Hne & Hall & ->).
    destruct id as [| c id]; [contradiction |].
    simpl in Hall. apply andb_true_iff in Hall as [Hc _].
    exists k, c, (id ++ rest). auto.
  - intros (k & c & rest & Hk & Hc & ->).
    exists rest, k, (String c ""). repeat split; auto.
    + discriminate.
    + simpl. now rewrite Hc.
Qed.

End UrlFacts.

Lemma valid_url_extends_witness :
  Home.isValidSpotifyUrl "https://open.spotify.com/track/7ouMYWpwJ422jRcDASZB7P"
  = true
  /\ Home.isValidSpotifyUrl
       ("https://open.spotify.com/track/7ouMYWpwJ422jRcDASZB7P"
        ++ "?si=0a1b2c&utm_source=copy-link") = true.
Proof.
  assert (V : Home.isValidSpotifyUrl
                "https://open.spotify.com/track/7ouMYWpwJ422jRcDASZB7P" = true)
    by reflexivity.
  split; [exact V |].
  exact (valid_url_extends _ "?si=0a1b2c&utm_source=copy-link" V).
Defined.

(** ** The list under the progress bar *)

Section ProgressListFacts.

Lemma slice_negative {A : Type} (k : nat) (a : list A) :
  (0 < k)%nat -> Js.slice (- Z.of_nat k) a = skipn (length a - k) a.
Proof.
  intros K. unfold Js.slice.
  destruct (Z.ltb_spec (- Z.of_nat k) 0) as [H | H]; [| lia].
  f_equal. lia.
Qed.

(** The list shows the last five progress entries of the snapshot, oldest of
    them first, and all of them when there are five or fewer: the entries
    are some older ones followed by those shown.  Each line carries the
    song's label and a check mark exactly when the entry's status is
    ["completed"]. *)
Theorem progress_rows_last_five :
  forall (s : Home.t) (st : Api.JobStatus.t),
    let entries := Api.JobStatus.progress st in
    let rows := Home.progress_rows (Home.setStatus (Some st) s) in
    length rows = Nat.min 5 (length entries)
    /\ (exists older recent,
          entries = older ++ recent
          /\ length older = (length entries - 5)%nat
          /\ rows = map Home.progress_row recent)%list
    /\ (length entries <= 5 -> rows = map Home.progress_row entries)%nat
    /\ (forall item,
          fst (Home.progress_row item) = Home.CheckIcon
          <-> Api.ProgressItem.status item = "completed").
Proof.
  intros s st entries rows.
  assert (R : rows = map Home.progress_row (skipn (length entries - 5) entries)).
  { subst rows. unfold Home.progress_rows. simpl. fold entries.
    change (-5)%Z with (- Z.of_nat 5)%Z. rewrite slice_negative by lia.
    destruct entries; reflexivity. }
  split; [| split; [| split]].
  - rewrite R, length_map, length_skipn. lia.
  - exists (firstn (length entries - 5) entries),
           (skipn (length entries - 5) entries).
    split; [symmetry; apply firstn_skipn |].
    split; [| exact R].
    rewrite length_firstn. lia.
  - intros H. rewrite R.
    replace (length entries - 5)%nat with 0%nat by lia. reflexivity.
  - intros item. unfold Home.progress_row. simpl.
    destruct (String.eqb_spec (Api.ProgressItem.status item) "completed");
      split; intros H; congruence.
Qed.

End ProgressListFacts.

(** ** What every run keeps *)

Section RunInvariants.

Variable NEXT_PUBLIC_API_URL : option string.

Local Abbreviation step := (Machine.step NEXT_PUBLIC_API_URL).
Local Abbreviation step_ui := (Machine.step_ui NEXT_PUBLIC_API_URL).
Local Abbreviation run := (Machine.run NEXT_PUBLIC_API_URL).
Local Abbreviation run_ui := (Machine.run_ui NEXT_PUBLIC_API_URL).

Lemma request_eqb_true (a b : Api.request) :
  Machine.request_eqb a b = true -> a = b.
Proof.
  destruct a, b; simpl; try discriminate; intros H;
    apply String.eqb_eq in H; now subst.
Qed.

Lemma take_out_subset (r : Api.request) (l : list Api.request) :
  forall rest x, Machine.take_out r l = Some rest -> In x rest -> In x l.
Proof.
  induction l as [| y l IH]; simpl; intros rest x H I; [discriminate |].
  destruct (Machine.request_eqb r y).
  - injection H as <-. now right.
  - destruct (Machine.take_out r l) as [rest' |]; [| discriminate].
    injection H as <-. destruct I as [<- | I]; [now left | right; eauto].
Qed.

Lemma take_out_keeps (r : Api.request) (l : list Api.request) :
  forall rest x,
    Machine.take_out r l = Some rest -> x <> r -> In x l -> In x rest.
Proof.
  induction l as [| y l IH]; simpl; intros rest x H N I; [discriminate |].
  destruct (Machine.request_eqb r y) eqn:E.
  - apply request_eqb_true in E. subst y. injection H as <-.
    destruct I as [<- | I]; [contradiction | assumption].
  - destruct (Machine.take_out r l) as [rest' |]; [| discriminate].
    injection H as <-. destruct I as [<- | I]; [now left | right; eauto].
Qed.

Lemma run_ui_invariant (P : Machine.t -> Prop) :
  (forall m e m', step_ui m e = Some m' -> P m -> P m') ->
  forall es m m', run_ui m es = Some m' -> P m -> P m'.
Proof.
  intros Hstep. induction es as [| e es IH]; simpl; intros m m' H Pm.
  - now injection H as <-.
  - destruct (step_ui m e) as [m1 |] eqn:E; [| discriminate].
    eapply IH; eauto.
Qed.

Lemma truthy_nonempty (j : string) : Js.truthy j = true -> j <> "".
Proof.
  destruct j; [discriminate | discriminate].
Qed.

(** What a request, or an opened address, must be like. *)
Let wellformed (m : Machine.t) : Prop :=
  (forall u, In (Api.POST_download u) (Machine.sent m) ->
             Home.isValidSpotifyUrl u = true)
  /\ (forall j, In (Api.GET_status j) (Machine.sent m) -> j <> "")
  /\ (forall a, In a (Machine.opened m) ->
        exists j, j <> "" /\ a = Api.getDownloadUrl NEXT_PUBLIC_API_URL j)
  /\ (forall r, In r (Machine.inflight m) -> In r (Machine.sent m)).

Lemma step_wellformed (m m' : Machine.t) (e : Machine.event) :
  step m e = Some m' -> wellformed m -> wellformed m'.
Proof.
  unfold wellformed. intros H (Hp & Hg & Ho & Hi).
  destruct e; simpl in H.
  - injection H as <-. simpl. auto.
  - unfold Home.handleSubmit in H.
    destruct (Home.isValidSpotifyUrl (Home.url (Machine.session m))) eqn:V;
      simpl in H; injection H as <-; simpl; [| auto].
    repeat split.
    + intros u I. apply in_app_or in I as [I | [I | []]]; [auto |].
      now injection I as <-.
    + intros j I. apply in_app_or in I as [I | [I | []]]; [auto | discriminate].
    + exact Ho.
    + intros q I. apply in_or_app.
      apply in_app_or in I as [I | I]; [left; auto | now right].
  - destruct (Machine.take_out _ _) as [rest |] eqn:T; [| discriminate].
    injection H as <-. simpl. repeat split; auto.
    intros q I. eauto using take_out_subset.
  - destruct (Home.interval _); [| discriminate]. injection H as <-.
    unfold Home.pollStatus.
    destruct (Home.jobId (Machine.session m)) as [j |]; simpl; [| auto].
    destruct (Js.truthy j) eqn:T; simpl; [| auto].
    repeat split.
    + intros u I. apply in_app_or in I as [I | [I | []]]; [auto | discriminate].
    + intros i I. apply in_app_or in I as [I | [I | []]]; [auto |].
      injection I as <-. now apply truthy_nonempty.
    + exact Ho.
    + intros q I. apply in_or_app.
      apply in_app_or in I as [I | I]; [left; auto | now right].
  - destruct (Machine.take_out _ _) as [rest |] eqn:T; [| discriminate].
    injection H as <-. simpl. repeat split; auto.
    intros q I. eauto using take_out_subset.
  - injection H as <-. unfold Home.handleDownload.
    destruct (Home.jobId (Machine.session m)) as [j |]; simpl; [| auto].
    destruct (Js.truthy j) eqn:T; simpl; [| auto].
    repeat split; auto.
    intros a I. apply in_app_or in I as [I | [<- | []]]; [auto |].
    exists j. split; [now apply truthy_nonempty | reflexivity].
  - injection H as <-. simpl. auto.
Qed.

(** Whatever the events, the page only ever asks the service to create a job
    for a URL that passes the validation, only ever polls with a non-empty
    job identifier, and only ever opens a download address built from a
    non-empty job identifier; and every request that is under way is one it
    has sent. *)
Theorem requests_are_wellformed :
  forall (es : list Machine.event) (m : Machine.t),
    run Machine.initial es = Some m ->
    (forall u, In (Api.POST_download u) (Machine.sent m) ->
               Home.isValidSpotifyUrl u = true)
    /\ (forall j, In (Api.GET_status j) (Machine.sent m) -> j <> "")
    /\ (forall a, In a (Machine.opened m) ->
          exists j, j <> "" /\ a = Api.getDownloadUrl NEXT_PUBLIC_API_URL j)
    /\ (forall r, In r (Machine.inflight m) -> In r (Machine.sent m)).
Proof.
  intros es m H.
  apply (run_invariant NEXT_PUBLIC_API_URL wellformed)
    with (es := es) (m := Machine.initial).
  - intros m0 e m1. apply step_wellformed.
  - exact H.
  - unfold wellformed. simpl. repeat split; intros; contradiction.
Qed.

End RunInvariants.

Lemma requests_are_wellformed_witness :
  let u := "https://open.spotify.com/playlist/abc123" in
  let created := Api.Ok (Api.Parsed (Api.DownloadResponse.mk "J1" "started")) in
  let es := [Machine.Type_url "not a link"; Machine.Submit;
             Machine.Type_url u; Machine.Submit;
             Machine.Create_replied u created; Machine.Tick] in
  let m := Machine.mk
             (Home.mk u Home.AppState.downloading (Some "J1") None None)
             [Api.GET_status "J1"]
             [Api.POST_download u; Api.GET_status "J1"] [] in
  Machine.run None Machine.initial es = Some m
  /\ (forall v, In (Api.POST_download v) (Machine.sent m) ->
                Home.isValidSpotifyUrl v = true)
  /\ (forall j, In (Api.GET_status j) (Machine.sent m) -> j <> "").
Proof.
  intros u created es m.
  assert (R : Machine.run None Machine.initial es = Some m) by reflexivity.
  split; [exact R |].
  destruct (requests_are_wellformed None es m R) as (P & G & _).
  split; [exact P | exact G].
Defined.

Section SessionInvariants.

Variable NEXT_PUBLIC_API_URL : option string.

Local Abbreviation step := (Machine.step NEXT_PUBLIC_API_URL).
Local Abbreviation step_ui := (Machine.step_ui NEXT_PUBLIC_API_URL).
Local Abbreviation run := (Machine.run NEXT_PUBLIC_API_URL).
Local Abbreviation run_ui := (Machine.run_ui NEXT_PUBLIC_API_URL).

Lemma pollStatus_resume_state c (s : Home.t) :
  Home.state (Home.pollStatus_resume c s) = Home.state s
  \/ Home.state (Home.pollStatus_resume c s) = Home.AppState.completed
  \/ Home.state (Home.pollStatus_resume c s) = Home.AppState.error.
Proof.
  destruct c as [js | e]; simpl; [| auto].
  destruct (Api.JobStatus.status js); simpl; auto.
Qed.

Lemma pollStatus_resume_error c (s : Home.t) :
  Home.state (Home.pollStatus_resume c s) = Home.state s
  /\ Home.error (Home.pollStatus_resume c s) = Home.error s
  \/ Home.state (Home.pollStatus_resume c s) = Home.AppState.completed
     /\ Home.error (Home.pollStatus_resume c s) = Home.error s
  \/ Home.state (Home.pollStatus_resume c s) = Home.AppState.error
     /\ exists msg, msg <> ""
                    /\ Home.error (Home.pollStatus_resume c s) = Some msg.
Proof.
  destruct c as [js | e]; simpl.
  - destruct (Api.JobStatus.status js); simpl; auto.
    right. right. split; [reflexivity |].
    exists (Js.or_else (Api.JobStatus.error js) "Download failed").
    split; [| reflexivity].
    destruct (Api.JobStatus.error js) as [[| c e] |]; simpl; discriminate.
  - right. right. split; [reflexivity |].
    eexists. split; [| reflexivity]. discriminate.
Qed.

Lemma step_loading_awaits (m m' : Machine.t) (e : Machine.event) :
  step m e = Some m' ->
  (Home.state (Machine.session m) = Home.AppState.loading ->
   exists u, In (Api.POST_download u) (Machine.inflight m)) ->
  Home.state (Machine.session m') = Home.AppState.loading ->
  exists u, In (Api.POST_download u) (Machine.inflight m').
Proof.
  intros H Inv. destruct e; simpl in H.
  - injection H as <-. exact Inv.
  - unfold Home.handleSubmit in H.
    destruct (Home.isValidSpotifyUrl _); simpl in H; injection H as <-; simpl.
    + intros _. eexists. apply in_or_app. right. now left.
    + exact Inv.
  - destruct (Machine.take_out _ _); [| discriminate].
    injection H as <-. simpl. intros L. exfalso. revert L.
    destruct (Api.startDownload_resume r); simpl; discriminate.
  - destruct (Home.interval _); [| discriminate]. injection H as <-.
    rewrite send_session. intros L. destruct (Inv L) as [u I].
    exists u. destruct (Home.pollStatus _); simpl; [| assumption].
    apply in_or_app. now left.
  - destruct (Machine.take_out _ _) as [rest |] eqn:T; [| discriminate].
    injection H as <-. simpl. intros L.
    destruct (pollStatus_resume_state (Api.getJobStatus_resume r)
                (Machine.session m)) as [E | [E | E]];
      rewrite E in L; try discriminate L.
    destruct (Inv L) as [u I]. exists u.
    apply (take_out_keeps _ _ _ _ T); [discriminate | exact I].
  - injection H as <-. rewrite open_window_session.
    intros L. destruct (Inv L) as [u I]. exists u.
    destruct (Home.handleDownload _ _); exact I.
  - injection H as <-. simpl. discriminate.
Qed.

(** The state [loading] always has a create-job request under way: there
    is no way into [loading] without sending one, and the reply to it
    always leads out of [loading]; no reply to a poll, however late, takes
    the request away. *)
Theorem loading_awaits_create_reply :
  forall (es : list Machine.event) (m : Machine.t),
    run Machine.initial es = Some m ->
    Home.state (Machine.session m) = Home.AppState.loading ->
    exists u,
      In (Api.POST_download u) (Machine.inflight m)
      /\ (forall r, exists m',
            step m (Machine.Create_replied u r) = Some m'
            /\ Home.state (Machine.session m') <> Home.AppState.loading).
Proof.
  intros es m H L.
  assert (I : exists u, In (Api.POST_download u) (Machine.inflight m)).
  { revert L.
    apply (run_invariant NEXT_PUBLIC_API_URL
             (fun m => Home.state (Machine.session m) = Home.AppState.loading ->
                       exists u, In (Api.POST_download u) (Machine.inflight m)))
      with (es := es) (m := Machine.initial).
    - intros m0 e m1. apply step_loading_awaits.
    - exact H.
    - simpl. discriminate. }
  destruct I as [u I]. exists u. split; [exact I |].
  intros r.
  destruct (create_reply_applied NEXT_PUBLIC_API_URL m u r I) as (rest & _ & E).
  eexists. split; [exact E |]. simpl.
  destruct (Api.startDownload_resume r); simpl; discriminate.
Qed.

Lemma step_error_has_message (m m' : Machine.t) (e : Machine.event) :
  step m e = Some m' ->
  (Home.state (Machine.session m) = Home.AppState.error ->
   Home.error (Machine.session m) <> None) ->
  Home.state (Machine.session m') = Home.AppState.error ->
  Home.error (Machine.session m') <> None.
Proof.
  intros H Inv. destruct e; simpl in H.
  - injection H as <-. exact Inv.
  - unfold Home.handleSubmit in H.
    destruct (Home.isValidSpotifyUrl _); simpl in H; injection H as <-; simpl;
      discriminate.
  - destruct (Machine.take_out _ _); [| discriminate].
    injection H as <-. simpl.
    destruct (Api.startDownload_resume r); simpl; discriminate.
  - destruct (Home.interval _); [| discriminate]. injection H as <-.
    rewrite send_session. exact Inv.
  - destruct (Machine.take_out _ _); [| discriminate].
    injection H as <-. simpl. intros L.
    destruct (pollStatus_resume_error (Api.getJobStatus_resume r)
                (Machine.session m)) as [[S E] | [[S E] | [S (msg & _ & E)]]];
      rewrite E.
    + apply Inv. now rewrite <- S.
    + rewrite S in L. discriminate L.
    + discriminate.
  - injection H as <-. rewrite open_window_session. exact Inv.
  - injection H as <-. simpl. discriminate.
Qed.

(** Whenever the state is [error] an error message is stored, and the card
    rendered is the form, which is where the message is displayed. *)
Theorem error_state_has_message :
  forall (es : list Machine.event) (m : Machine.t),
    run Machine.initial es = Some m ->
    Home.state (Machine.session m) = Home.AppState.error ->
    (exists msg, Home.error (Machine.session m) = Some msg)
    /\ Home.render (Machine.session m) = Home.Form.
Proof.
  intros es m H L. split.
  - assert (N : Home.error (Machine.session m) <> None).
    { revert L.
      apply (run_invariant NEXT_PUBLIC_API_URL
               (fun m => Home.state (Machine.session m) = Home.AppState.error ->
                         Home.error (Machine.session m) <> None))
        with (es := es) (m := Machine.initial).
      - intros m0 e m1. apply step_error_has_message.
      - exact H.
      - simpl. discriminate. }
    destruct (Home.error (Machine.session m)) as [msg |]; [eauto | contradiction].
  - unfold Home.render. now rewrite L.
Qed.

(** A reply to a poll that takes the page into [error] from another state
    leaves a message that is not empty, and the form displays it. *)
Theorem poll_failure_is_shown :
  forall (s : Home.t) (r : Api.reply Api.JobStatus.t unit),
    let s' := Home.pollStatus_resume (Api.getJobStatus_resume r) s in
    Home.state s <> Home.AppState.error ->
    Home.state s' = Home.AppState.error ->
    exists msg, msg <> "" /\ Home.error_shown s' = Some msg.
Proof.
  intros s r s' N L. subst s'.
  destruct (pollStatus_resume_error (Api.getJobStatus_resume r) s)
    as [[S E] | [[S E] | [S (msg & Hm & E)]]].
  - rewrite S in L. contradiction.
  - rewrite S in L. discriminate L.
  - exists msg. split; [exact Hm |].
    unfold Home.error_shown, Home.render. rewrite L, E. simpl.
    destruct msg; [contradiction | reflexivity].
Qed.

End SessionInvariants.

Lemma loading_awaits_create_reply_witness :
  let u := "https://open.spotify.com/playlist/abc123" in
  let es := [Machine.Type_url u; Machine.Submit] in
  let m := Machine.mk (Home.mk u Home.AppState.loading None None None)
             [Api.POST_download u] [Api.POST_download u] [] in
  (Machine.run None Machine.initial es = Some m
   /\ Home.state (Machine.session m) = Home.AppState.loading)
  /\ exists v, In (Api.POST_download v) (Machine.inflight m).
Proof.
  intros u es m.
  assert (R : Machine.run None Machine.initial es = Some m) by reflexivity.
  split; [split; [exact R | reflexivity] |].
  destruct (loading_awaits_create_reply None es m R eq_refl) as (v & I & _).
  exists v. exact I.
Defined.

Lemma error_state_has_message_witness :
  let u := "https://open.spotify.com/playlist/abc123" in
  let es := [Machine.Type_url u; Machine.Submit;
             Machine.Create_replied u (Api.Unreachable "Failed to fetch")] in
  let m := Machine.mk
             (Home.mk u Home.AppState.error None None (Some "Failed to fetch"))
             [] [Api.POST_download u] [] in
  (Machine.run None Machine.initial es = Some m
   /\ Home.state (Machine.session m) = Home.AppState.error)
  /\ (exists msg, Home.error (Machine.session m) = Some msg)
  /\ Home.render (Machine.session m) = Home.Form.
Proof.
  intros u es m.
  assert (R : Machine.run None Machine.initial es = Some m) by reflexivity.
  split; [split; [exact R | reflexivity] |].
  exact (error_state_has_message None es m R eq_refl).
Defined.

Lemma poll_failure_is_shown_witness :
  let s := Home.mk "https://open.spotify.com/playlist/abc123"
             Home.AppState.downloading (Some "J1") None None in
  let r : Api.reply Api.JobStatus.t unit := Api.NotOk (Api.Malformed "<html>") in
  let s' := Home.pollStatus_resume (Api.getJobStatus_resume r) s in
  (Home.state s <> Home.AppState.error
   /\ Home.state s' = Home.AppState.error)
  /\ exists msg, msg <> "" /\ Home.error_shown s' = Some msg.
Proof.
  intros s r s'.
  assert (N : Home.state s <> Home.AppState.error) by discriminate.
  split; [split; [exact N | reflexivity] |].
  exact (poll_failure_is_shown s r N eq_refl).
Defined.

Section GuardedRuns.

Variable NEXT_PUBLIC_API_URL : option string.

Local Abbreviation step := (Machine.step NEXT_PUBLIC_API_URL).
Local Abbreviation step_ui := (Machine.step_ui NEXT_PUBLIC_API_URL).
Local Abbreviation run := (Machine.run NEXT_PUBLIC_API_URL).
Local Abbreviation run_ui := (Machine.run_ui NEXT_PUBLIC_API_URL).

Lemma step_ui_loading_no_error (m m' : Machine.t) (e : Machine.event) :
  step_ui m e = Some m' ->
  (Home.state (Machine.session m) = Home.AppState.loading ->
   Home.error (Machine.session m) = None) ->
  Home.state (Machine.session m') = Home.AppState.loading ->
  Home.error (Machine.session m') = None.
Proof.
  unfold Machine.step_ui, Machine.offered, Home.render, Home.input_disabled,
    Home.submit_disabled.
  intros H Inv. destruct e; simpl in H.
  - destruct (Home.state (Machine.session m)) eqn:S; simpl in H;
      try discriminate H; injection H as <-; simpl; rewrite S; discriminate.
  - destruct (Home.state (Machine.session m)) eqn:S; simpl in H;
      try discriminate H;
      (destruct (negb (negb (Js.truthy (Home.url (Machine.session m)))));
       [| discriminate H]);
      unfold Home.handleSubmit in H;
      (destruct (Home.isValidSpotifyUrl _); simpl in H; injection H as <-;
       simpl; [reflexivity | rewrite S; discriminate]).
  - destruct (Home.state (Machine.session m));
      (destruct (Machine.take_out _ _); [| discriminate H]);
      injection H as <-; simpl;
      destruct (Api.startDownload_resume r); simpl; discriminate.
  - assert (H' : step m Machine.Tick = Some m')
      by (destruct (Home.state (Machine.session m)); exact H).
    simpl in H'. destruct (Home.interval _); [| discriminate].
    injection H' as <-. rewrite send_session. exact Inv.
  - assert (H' : step m (Machine.Poll_replied j r) = Some m')
      by (destruct (Home.state (Machine.session m)); exact H).
    simpl in H'. destruct (Machine.take_out _ _); [| discriminate].
    injection H' as <-. simpl. intros L.
    destruct (pollStatus_resume_error (Api.getJobStatus_resume r)
                (Machine.session m)) as [[S E] | [[S E] | [S _]]];
      rewrite S in L; try discriminate L.
    rewrite E. now apply Inv.
  - destruct (Home.state (Machine.session m)) eqn:S; simpl in H;
      try discriminate H; injection H as <-;
      rewrite open_window_session, S; discriminate.
  - destruct (Home.state (Machine.session m)); simpl in H;
      try discriminate H; injection H as <-; simpl; discriminate.
Qed.

(** With the controls the cards offer, the form never shows an error while
    it shows the spinner: in [loading] no error is stored.  The input and
    the button are disabled there, so the validation message cannot be set,
    and every reply that stores an error also leaves [loading]. *)
Theorem no_error_while_loading :
  forall (es : list Machine.event) (m : Machine.t),
    run_ui Machine.initial es = Some m ->
    Home.state (Machine.session m) = Home.AppState.loading ->
    Home.error (Machine.session m) = None
    /\ Home.error_shown (Machine.session m) = None
    /\ (forall e, Machine.is_user_event e = true -> step_ui m e = None).
Proof.
  intros es m H L.
  assert (N : Home.error (Machine.session m) = None).
  { revert L.
    apply (run_ui_invariant NEXT_PUBLIC_API_URL
             (fun m => Home.state (Machine.session m) = Home.AppState.loading ->
                       Home.error (Machine.session m) = None))
      with (es := es) (m := Machine.initial).
    - intros m0 e m1. apply step_ui_loading_no_error.
    - exact H.
    - reflexivity. }
  split; [exact N |]. split.
  - unfold Home.error_shown. rewrite N. now destruct (Home.render _).
  - intros e U. unfold Machine.step_ui, Machine.offered, Home.render,
      Home.input_disabled, Home.submit_disabled.
    rewrite L. destruct e; simpl in *; try discriminate U; reflexivity.
Qed.

Lemma step_sends_nothing (m m' : Machine.t) (e : Machine.event) :
  Home.state (Machine.session m) <> Home.AppState.downloading ->
  Machine.is_created e = false ->
  Machine.is_submit e = false ->
  step m e = Some m' ->
  Home.state (Machine.session m') <> Home.AppState.downloading
  /\ Machine.sent m' = Machine.sent m.
Proof.
  intros D C S. destruct e; simpl in *; try discriminate; intros H.
  - injection H as <-. auto.
  - destruct (Machine.take_out _ _); [| discriminate].
    injection H as <-. simpl. split; [| reflexivity].
    destruct r as [msg | [response | msg] | [b | msg]]; simpl in *;
      discriminate.
  - rewrite (interval_None _ D) in H. discriminate H.
  - destruct (Machine.take_out _ _); [| discriminate].
    injection H as <-. simpl.
    split; [now apply pollStatus_resume_not_downloading | reflexivity].
  - injection H as <-.
    destruct (Home.handleDownload _ _); simpl; auto.
  - injection H as <-. simpl. split; [discriminate | reflexivity].
Qed.

Lemma run_sends_nothing (es : list Machine.event) :
  forall m m',
    Home.state (Machine.session m) <> Home.AppState.downloading ->
    forallb (fun e => negb (Machine.is_created e)
                      && negb (Machine.is_submit e)) es = true ->
    run m es = Some m' ->
    Machine.sent m' = Machine.sent m
    /\ Home.state (Machine.session m') <> Home.AppState.downloading.
Proof.
  induction es as [| e es IH]; simpl; intros m m' D C H.
  - injection H as <-. auto.
  - apply andb_true_iff in C as [Ce Ces].
    apply andb_true_iff in Ce as [Cc Cs].
    apply negb_true_iff in Cc, Cs.
    destruct (step m e) as [m1 |] eqn:E; [| discriminate].
    destruct (step_sends_nothing _ _ _ D Cc Cs E) as [D1 S1].
    destruct (IH m1 m' D1 Ces H) as [S2 D2].
    split; [congruence | exact D2].
Qed.

(** Nothing is retried.  Over any run, create-job requests are sent by
    submits only, at most one for each, and polls by ticks only, one for
    each: no reply of any kind, failed or not, makes the page send a request.
    So once the state is other than [downloading], no request at all is sent
    until the user submits again or a create-job call still under way
    succeeds, whatever replies, failures included, and typing, download and
    reset events occur. *)
Theorem no_request_without_submit :
  forall (es : list Machine.event) (m m' : Machine.t),
    run m es = Some m' ->
    (length (Machine.creates (Machine.sent m'))
     <= length (Machine.creates (Machine.sent m)) + Machine.submits es)%nat
    /\ (Machine.submits es = 0%nat ->
        Machine.creates (Machine.sent m') = Machine.creates (Machine.sent m))
    /\ length (Machine.polls (Machine.sent m'))
       = (length (Machine.polls (Machine.sent m)) + Machine.ticks es)%nat
    /\ (Home.state (Machine.session m) <> Home.AppState.downloading ->
        forallb (fun e => negb (Machine.is_created e)
                          && negb (Machine.is_submit e)) es = true ->
        Machine.sent m' = Machine.sent m
        /\ Home.state (Machine.session m') <> Home.AppState.downloading).
Proof.
  intros es m m' R.
  destruct (run_sent_counts NEXT_PUBLIC_API_URL es m m' R) as (P & C & Z).
  split; [exact C |]. split; [exact Z |]. split; [exact P |].
  intros D F. now apply run_sends_nothing with es.
Qed.

End GuardedRuns.

Lemma no_error_while_loading_witness :
  let u := "https://open.spotify.com/playlist/abc123" in
  let es := [Machine.Type_url "spotify"; Machine.Submit;
             Machine.Type_url u; Machine.Submit] in
  let m := Machine.mk (Home.mk u Home.AppState.loading None None None)
             [Api.POST_download u] [Api.POST_download u] [] in
  (Machine.run_ui None Machine.initial es = Some m
   /\ Home.state (Machine.session m) = Home.AppState.loading)
  /\ Home.error (Machine.session m) = None
  /\ Machine.step_ui None m Machine.Submit = None.
Proof.
  intros u es m.
  assert (R : Machine.run_ui None Machine.initial es = Some m) by reflexivity.
  split; [split; [exact R | reflexivity] |].
  destruct (no_error_while_loading None es m R eq_refl) as (N & _ & U).
  split; [exact N | exact (U Machine.Submit eq_refl)].
Defined.

Lemma no_request_without_submit_witness :
  let u := "https://open.spotify.com/playlist/abc123" in
  let m := Machine.mk (Home.mk u Home.AppState.loading None None None)
             [Api.POST_download u] [Api.POST_download u] [] in
  let es := [Machine.Create_replied u (Api.Unreachable "Failed to fetch");
             Machine.Type_url "x"; Machine.Download; Machine.Reset] in
  let m' := Machine.mk Home.initial [] [Api.POST_download u] [] in
  Machine.run None m es = Some m'
  /\ Machine.sent m' = Machine.sent m
  /\ (length (Machine.creates (Machine.sent m'))
      <= length (Machine.creates (Machine.sent m)) + 0)%nat.
Proof.
  intros u m es m'.
  assert (R : Machine.run None m es = Some m') by reflexivity.
  split; [exact R |].
  destruct (no_request_without_submit None es m m' R) as (C & _ & _ & S).
  assert (D : Home.state (Machine.session m) <> Home.AppState.downloading)
    by discriminate.
  destruct (S D eq_refl) as [S' _].
  split; [exact S' | exact C].
Defined.

(** ** Which event touches what *)

Section Frames.

Variable NEXT_PUBLIC_API_URL : option string.

Local Abbreviation step := (Machine.step NEXT_PUBLIC_API_URL).
Local Abbreviation run := (Machine.run NEXT_PUBLIC_API_URL).

(** The URL is changed by typing and by reset only, the job identifier by a
    create-job reply and by reset only, the snapshot by a poll reply and by
    reset only.  In particular a new submission neither clears the snapshot
    nor is it cleared when the new job is created: the progress shown for a
    second job is that of the first until a poll is answered.  Ticks and the
    download action leave all five values alone. *)
Theorem event_frames :
  forall (m m' : Machine.t) (e : Machine.event),
    step m e = Some m' ->
    let s := Machine.session m in
    let s' := Machine.session m' in
    match e with
    | Machine.Type_url u =>
        s' = Home.setUrl u s
    | Machine.Submit =>
        Home.url s' = Home.url s /\ Home.jobId s' = Home.jobId s
        /\ Home.status s' = Home.status s
    | Machine.Create_replied _ _ =>
        Home.url s' = Home.url s /\ Home.status s' = Home.status s
    | Machine.Poll_replied _ _ =>
        Home.url s' = Home.url s /\ Home.jobId s' = Home.jobId s
    | Machine.Tick | Machine.Download => s' = s
    | Machine.Reset => s' = Home.initial
    end.
Proof.
  intros m m' e H. destruct e; simpl in H |- *.
  - now injection H as <-.
  - unfold Home.handleSubmit in H.
    destruct (Home.isValidSpotifyUrl _); simpl in H; injection H as <-;
      simpl; auto.
  - destruct (Machine.take_out _ _); [| discriminate].
    injection H as <-. simpl.
    destruct (Api.startDownload_resume r); simpl; auto.
  - destruct (Home.interval _); [| discriminate].
    injection H as <-. apply send_session.
  - destruct (Machine.take_out _ _); [| discriminate].
    injection H as <-. simpl.
    destruct (Api.getJobStatus_resume r) as [js | x]; simpl; auto.
    destruct (Api.JobStatus.status js); simpl; auto.
  - injection H as <-. apply open_window_session.
  - now injection H as <-.
Qed.

Lemma pollStatus_Some (s : Home.t) (q : Api.request) :
  Home.pollStatus s = Some q ->
  exists j, Home.jobId s = Some j /\ j <> "" /\ q = Api.GET_status j.
Proof.
  unfold Home.pollStatus. destruct (Home.jobId s) as [j |]; [| discriminate].
  destruct j; simpl; [discriminate |]. intros H. injection H as <-.
  eexists. repeat split. discriminate.
Qed.

Lemma handleDownload_Some (s : Home.t) (a : string) :
  Home.handleDownload NEXT_PUBLIC_API_URL s = Some a ->
  exists j, Home.jobId s = Some j /\ j <> ""
            /\ a = Api.getDownloadUrl NEXT_PUBLIC_API_URL j.
Proof.
  unfold Home.handleDownload. destruct (Home.jobId s) as [j |]; [| discriminate].
  destruct j; simpl; [discriminate |]. intros H. injection H as <-.
  eexists. repeat split. discriminate.
Qed.

Lemma issued_more (h : list Machine.event) (e : Machine.event) (j : string) :
  Machine.issued h j -> Machine.issued (h ++ [e]) j.
Proof.
  intros (x & I & E). exists x. split; [| exact E].
  apply in_or_app. now left.
Qed.

Lemma issued_last (h : list Machine.event) (e : Machine.event) (j : string) :
  Machine.issued_by e = Some j -> Machine.issued (h ++ [e]) j.
Proof.
  intros E. exists e. split; [| exact E].
  apply in_or_app. right. now left.
Qed.

(** Job identifiers in use all come from the service. *)
Let from_service (h : list Machine.event) (m : Machine.t) : Prop :=
  (forall j, Home.jobId (Machine.session m) = Some j -> Machine.issued h j)
  /\ (forall j, In (Api.GET_status j) (Machine.sent m) -> Machine.issued h j)
  /\ (forall a, In a (Machine.opened m) ->
        exists j, Machine.issued h j
                  /\ a = Api.getDownloadUrl NEXT_PUBLIC_API_URL j).

Lemma step_from_service (h : list Machine.event) (m m' : Machine.t)
    (e : Machine.event) :
  step m e = Some m' -> from_service h m -> from_service (h ++ [e]) m'.
Proof.
  unfold from_service. intros H (Hj & Hg & Ho).
  assert (Hj' : forall j, Home.jobId (Machine.session m) = Some j ->
                          Machine.issued (h ++ [e]) j)
    by auto using issued_more.
  assert (Hg' : forall j, In (Api.GET_status j) (Machine.sent m) ->
                          Machine.issued (h ++ [e]) j)
    by auto using issued_more.
  assert (Ho' : forall a, In a (Machine.opened m) ->
                  exists j, Machine.issued (h ++ [e]) j
                            /\ a = Api.getDownloadUrl NEXT_PUBLIC_API_URL j).
  { intros a I. destruct (Ho a I) as (j & Ij & E).
    exists j. auto using issued_more. }
  clear Hj Hg Ho.
  destruct e; simpl in H.
  - injection H as <-. simpl. auto.
  - unfold Home.handleSubmit in H.
    destruct (Home.isValidSpotifyUrl _); simpl in H; injection H as <-;
      simpl; [| auto].
    repeat split; auto.
    intros j I. apply in_app_or in I as [I | [I | []]]; [auto | discriminate].
  - destruct (Machine.take_out _ _); [| discriminate].
    injection H as <-. simpl. repeat split; auto.
    destruct r as [msg | [response | msg] | [b | msg]]; simpl; auto.
    intros j E. injection E as <-. now apply issued_last.
  - destruct (Home.interval _); [| discriminate]. injection H as <-.
    destruct (Home.pollStatus (Machine.session m)) as [q |] eqn:P;
      simpl; [| auto].
    apply pollStatus_Some in P as (j & J & _ & ->).
    split; [exact Hj' | split; [| exact Ho']].
    intros i I. apply in_app_or in I as [I | [I | []]]; [auto |].
    injection I as <-. auto.
  - destruct (Machine.take_out _ _); [| discriminate].
    injection H as <-. simpl. repeat split; auto.
    rewrite pollStatus_resume_jobId. auto.
  - injection H as <-.
    destruct (Home.handleDownload _ (Machine.session m)) as [a0 |] eqn:D;
      simpl; [| auto].
    apply handleDownload_Some in D as (j & J & _ & ->).
    split; [exact Hj' | split; [exact Hg' |]].
    intros a I. apply in_app_or in I as [I | [<- | []]]; [auto |].
    exists j. auto.
  - injection H as <-. simpl. repeat split; auto. discriminate.
Qed.

Lemma run_from_service (es : list Machine.event) :
  forall h m m',
    run m es = Some m' -> from_service h m -> from_service (h ++ es) m'.
Proof.
  induction es as [| e es IH]; simpl; intros h m m' H F.
  - injection H as <-. now rewrite app_nil_r.
  - destruct (step m e) as [m1 |] eqn:E; [| discriminate].
    change (e :: es) with ([e] ++ es)%list. rewrite app_assoc.
    apply IH with m1; [exact H |].
    now apply step_from_service with m.
Qed.

(** The page never makes up a job identifier: the one it holds, every one
    it has polled, and every one it has built a download address from came
    in with a create-job reply (2xx, body parsed) earlier in the run. *)
Theorem job_ids_come_from_service :
  forall (es : list Machine.event) (m : Machine.t),
    run Machine.initial es = Some m ->
    (forall j, Home.jobId (Machine.session m) = Some j -> Machine.issued es j)
    /\ (forall j, In (Api.GET_status j) (Machine.sent m) -> Machine.issued es j)
    /\ (forall a, In a (Machine.opened m) ->
          exists j, Machine.issued es j
                    /\ a = Api.getDownloadUrl NEXT_PUBLIC_API_URL j).
Proof.
  intros es m H.
  apply (run_from_service es [] Machine.initial m H).
  unfold from_service. simpl.
  repeat split; intros; try discriminate; contradiction.
Qed.

End Frames.

Lemma event_frames_witness :
  let u := "https://open.spotify.com/playlist/second" in
  let item := Api.ProgressItem.mk "A" "completed" "" in
  let old := Api.JobStatus.mk "J1" Api.Status.error [item] 1 None (Some "x") in
  let s := Home.mk u Home.AppState.error (Some "J1") (Some old) (Some "x") in
  let m := Machine.mk s [] [] [] in
  let m' := Machine.mk
              (Home.mk u Home.AppState.loading (Some "J1") (Some old) None)
              [Api.POST_download u] [Api.POST_download u] [] in
  Machine.step None m Machine.Submit = Some m'
  /\ Home.status (Machine.session m') = Some old
  /\ Home.jobId (Machine.session m') = Some "J1".
Proof.
  intros u item old s m m'.
  assert (E : Machine.step None m Machine.Submit = Some m') by reflexivity.
  split; [exact E |].
  destruct (event_frames None m m' Machine.Submit E) as (_ & J & S).
  split; [exact S | exact J].
Defined.

Lemma job_ids_come_from_service_witness :
  let u := "https://open.spotify.com/playlist/abc123" in
  let created := Api.Ok (Api.Parsed (Api.DownloadResponse.mk "J1" "started")) in
  let done := Api.JobStatus.mk "J1" Api.Status.completed [] 2 None None in
  let es := [Machine.Type_url u; Machine.Submit;
             Machine.Create_replied u created; Machine.Tick;
             Machine.Poll_replied "J1" (Api.Ok (Api.Parsed done));
             Machine.Download] in
  let m := Machine.mk
             (Home.mk u Home.AppState.completed (Some "J1") (Some done) None)
             [] [Api.POST_download u; Api.GET_status "J1"]
             ["http://localhost:8000/api/download/J1/zip"] in
  Machine.run None Machine.initial es = Some m
  /\ Machine.issued es "J1"
  /\ (forall j, In (Api.GET_status j) (Machine.sent m) -> Machine.issued es j).
Proof.
  intros u created done es m.
  assert (R : Machine.run None Machine.initial es = Some m) by reflexivity.
  split; [exact R |].
  destruct (job_ids_come_from_service None es m R) as (J & G & _).
  split; [exact (J "J1" eq_refl) | exact G].
Defined.

(** ** Replies to create-job, and the addresses used *)

Section ApiFacts.

Lemma length_append (a b : string) :
  String.length (a ++ b) = (String.length a + String.length b)%nat.
Proof.
  induction a as [| c a IH]; simpl; [reflexivity | now rewrite IH].
Qed.

Lemma append_cancel_l (p a b : string) : p ++ a = p ++ b -> a = b.
Proof.
  induction p; simpl; intros H; [assumption | injection H; auto].
Qed.

Lemma append_cancel_r (s : string) :
  forall a b : string, a ++ s = b ++ s -> a = b.
Proof.
  induction a as [| c a IH]; intros [| d b] H; simpl in H.
  - reflexivity.
  - apply (f_equal String.length) in H. simpl in H.
    rewrite length_append in H. lia.
  - apply (f_equal String.length) in H. simpl in H.
    rewrite length_append in H. lia.
  - injection H as -> H. f_equal. now apply IH.
Qed.

(** How a create-job call can end, and what the page then holds.  The state
    becomes [downloading] exactly when the answer has a 2xx status and a
    body that parses; every other answer gives [error].  If the service
    cannot be reached, or the body of the answer does not parse (whatever
    the status), the message stored is the one of that failure, not a
    message of the page's own; the catch's own fallback text is never
    used, since everything [startDownload] throws is an [Error]. *)
Theorem create_reply_outcome :
  forall (s : Home.t) (r : Api.reply Api.DownloadResponse.t Api.ErrorBody.t),
    let c := Api.startDownload_resume r in
    let s' := Home.handleSubmit_resume c s in
    c <> Api.Throw Api.NotAnError
    /\ (Home.state s' = Home.AppState.downloading
        <-> exists response, r = Api.Ok (Api.Parsed response))
    /\ (Home.state s' <> Home.AppState.downloading ->
        Home.state s' = Home.AppState.error)
    /\ match r with
       | Api.Ok (Api.Parsed response) =>
           Home.jobId s' = Some (Api.DownloadResponse.job_id response)
           /\ Home.error s' = Home.error s
       | Api.NotOk (Api.Parsed b) =>
           Home.error s'
           = Some (Js.or_else (Api.ErrorBody.detail b) "Failed to start download")
           /\ Home.jobId s' = Home.jobId s
       | Api.Unreachable msg | Api.Ok (Api.Malformed msg)
       | Api.NotOk (Api.Malformed msg) =>
           Home.error s' = Some msg /\ Home.jobId s' = Home.jobId s
       end.
Proof.
  intros s r c s'. subst c s'.
  destruct r as [msg | [response | msg] | [b | msg]]; simpl;
    (split; [discriminate |]).
  - split; [split; [intros H | intros [x H]]; discriminate H |].
    split; [intros _; reflexivity | split; reflexivity].
  - split; [split; [eauto | reflexivity] |].
    split; [intros H; now contradiction H | split; reflexivity].
  - split; [split; [intros H | intros [x H]]; discriminate H |].
    split; [intros _; reflexivity | split; reflexivity].
  - split; [split; [intros H | intros [x H]]; discriminate H |].
    split; [intros _; reflexivity | split; reflexivity].
  - split; [split; [intros H | intros [x H]]; discriminate H |].
    split; [intros _; reflexivity | split; reflexivity].
Qed.

(** Addresses tell jobs apart: two job identifiers with the same download
    address, or the same status address, are the same identifier, and no
    download address is a status address.  The base address is never empty:
    it is the configured one unless that is missing or empty, and then it is
    ["http://localhost:8000"]. *)
Theorem addresses_tell_jobs_apart :
  forall (NEXT_PUBLIC_API_URL : option string) (i j : string),
    (Api.getDownloadUrl NEXT_PUBLIC_API_URL i
     = Api.getDownloadUrl NEXT_PUBLIC_API_URL j -> i = j)
    /\ (Api.endpoint NEXT_PUBLIC_API_URL (Api.GET_status i)
        = Api.endpoint NEXT_PUBLIC_API_URL (Api.GET_status j) -> i = j)
    /\ Api.getDownloadUrl NEXT_PUBLIC_API_URL i
       <> Api.endpoint NEXT_PUBLIC_API_URL (Api.GET_status j)
    /\ Api.API_URL NEXT_PUBLIC_API_URL <> ""
    /\ (forall b, NEXT_PUBLIC_API_URL = Some b -> b <> "" ->
                  Api.API_URL NEXT_PUBLIC_API_URL = b)
    /\ (NEXT_PUBLIC_API_URL = None \/ NEXT_PUBLIC_API_URL = Some "" ->
        Api.API_URL NEXT_PUBLIC_API_URL = "http://localhost:8000").
Proof.
  intros env i j. unfold Api.getDownloadUrl, Api.endpoint.
  split; [| split; [| split; [| split; [| split]]]].
  - intros H. apply append_cancel_l in H. simpl in H.
    injection H as H. now apply append_cancel_r in H.
  - intros H. apply append_cancel_l in H. simpl in H. now injection H.
  - intros H. apply append_cancel_l in H. discriminate H.
  - unfold Api.API_URL. destruct env as [[| c b] |]; simpl; discriminate.
  - intros b -> Hb. unfold Api.API_URL. simpl.
    destruct b; [contradiction | reflexivity].
  - intros [-> | ->]; reflexivity.
Qed.

End ApiFacts.

(** ** What the cards can count on *)

Section CardFacts.

Variable NEXT_PUBLIC_API_URL : option string.

Local Abbreviation step := (Machine.step NEXT_PUBLIC_API_URL).
Local Abbreviation run := (Machine.run NEXT_PUBLIC_API_URL).

Lemma step_cards_have_data (m m' : Machine.t) (e : Machine.event) :
  step m e = Some m' ->
  (Home.state (Machine.session m) = Home.AppState.downloading ->
   Home.jobId (Machine.session m) <> None)
  /\ (Home.state (Machine.session m) = Home.AppState.completed ->
      Home.status (Machine.session m) <> None) ->
  (Home.state (Machine.session m') = Home.AppState.downloading ->
   Home.jobId (Machine.session m') <> None)
  /\ (Home.state (Machine.session m') = Home.AppState.completed ->
      Home.status (Machine.session m') <> None).
Proof.
  intros H [Hd Hc]. destruct e; simpl in H.
  - injection H as <-. simpl. auto.
  - unfold Home.handleSubmit in H.
    destruct (Home.isValidSpotifyUrl _); simpl in H; injection H as <-; simpl;
      [split; discriminate | auto].
  - destruct (Machine.take_out _ _); [| discriminate].
    injection H as <-. simpl.
    destruct (Api.startDownload_resume r); simpl; split; discriminate.
  - destruct (Home.interval _); [| discriminate]. injection H as <-.
    rewrite send_session. auto.
  - destruct (Machine.take_out _ _); [| discriminate].
    injection H as <-. simpl.
    destruct (Api.getJobStatus_resume r) as [js | x]; simpl;
      [| split; discriminate].
    destruct (Api.JobStatus.status js); simpl; split; auto; discriminate.
  - injection H as <-. rewrite open_window_session. auto.
  - injection H as <-. simpl. split; discriminate.
Qed.

(** The card with the progress bar is only ever shown with a job identifier
    in hand, and the card with the download button only ever with a
    snapshot, so the number of songs it prints is one the service reported. *)
Theorem cards_have_their_data :
  forall (es : list Machine.event) (m : Machine.t),
    run Machine.initial es = Some m ->
    (Home.render (Machine.session m) = Home.Downloading ->
     exists j, Home.jobId (Machine.session m) = Some j)
    /\ (Home.render (Machine.session m) = Home.Ready ->
        exists st,
          Home.status (Machine.session m) = Some st
          /\ Home.songs_shown (Machine.session m) = Api.JobStatus.song_count st).
Proof.
  intros es m H.
  assert (I : (Home.state (Machine.session m) = Home.AppState.downloading ->
               Home.jobId (Machine.session m) <> None)
              /\ (Home.state (Machine.session m) = Home.AppState.completed ->
                  Home.status (Machine.session m) <> None)).
  { apply (run_invariant NEXT_PUBLIC_API_URL
             (fun m =>
                (Home.state (Machine.session m) = Home.AppState.downloading ->
                 Home.jobId (Machine.session m) <> None)
                /\ (Home.state (Machine.session m) = Home.AppState.completed ->
                    Home.status (Machine.session m) <> None)))
      with (es := es) (m := Machine.initial).
    - intros m0 e m1. apply step_cards_have_data.
    - exact H.
    - simpl. split; discriminate. }
  destruct I as [Id Ic]. unfold Home.render, Home.songs_shown. split.
  - destruct (Home.state (Machine.session m)); try discriminate. intros _.
    destruct (Home.jobId (Machine.session m)) as [j |]; [eauto |].
    now contradiction Id.
  - destruct (Home.state (Machine.session m)); try discriminate. intros _.
    destruct (Home.status (Machine.session m)) as [st |];
      [| now contradiction Ic].
    exists st. split; [reflexivity |].
    destruct (Z.eqb_spec (Api.JobStatus.song_count st) 0); congruence.
Qed.

End CardFacts.

Lemma cards_have_their_data_witness :
  let u := "https://open.spotify.com/playlist/abc123" in
  let created := Api.Ok (Api.Parsed (Api.DownloadResponse.mk "J1" "started")) in
  let es := [Machine.Type_url u; Machine.Submit;
             Machine.Create_replied u created] in
  let m := Machine.mk
             (Home.mk u Home.AppState.downloading (Some "J1") None None)
             [] [Api.POST_download u] [] in
  Machine.run None Machine.initial es = Some m
  /\ Home.render (Machine.session m) = Home.Downloading
  /\ exists j, Home.jobId (Machine.session m) = Some j.
Proof.
  intros u created es m.
  assert (R : Machine.run None Machine.initial es = Some m) by reflexivity.
  split; [exact R |]. split; [reflexivity |].
  destruct (cards_have_their_data None es m R) as [D _].
  exact (D eq_refl).
Defined.
